(** * OpenAPI client generator (scripts/generate-auth-client.mjs)

    A shallow embedding of the generator script: the identifier sanitizer,
    the operation indexer, the per-tag module renderer and the orchestrating
    [main], followed by the properties established about them.

    JavaScript strings are sequences of UTF-16 code units; regular
    expressions without the [u] flag work on code units, so the embedding
    does too.  Objects obtained from [JSON.parse] are kept as association
    lists in enumeration order ([Object.entries] / [Object.keys]). *)

From Stdlib Require Import List NArith Bool Ascii String Arith Lia.
From Stdlib Require Import DecimalString.
Import ListNotations.

Set Implicit Arguments.

(* ================================================================== *)
(** * JavaScript strings *)
(* ================================================================== *)

Module JsString.

Definition codeUnit := N.
Definition jsstring := list codeUnit.

(** A literal written in the script: every character of the sources'
    literals is ASCII, so the code unit is the character's code. *)
Definition js (s : string) : jsstring :=
  List.map N_of_ascii (list_ascii_of_string s).

Definition jsstring_eq_dec : forall a b : jsstring, {a = b} + {a <> b} :=
  list_eq_dec N.eq_dec.

Definition jsstring_eqb (a b : jsstring) : bool :=
  if jsstring_eq_dec a b then true else false.

(** Truthiness of a string value: only the empty string is falsy. *)
Definition truthy (s : jsstring) : bool :=
  match s with [] => false | _ :: _ => true end.

(** [a.join(sep)] on an array of strings. *)
Fixpoint join (sep : jsstring) (l : list jsstring) : jsstring :=
  match l with
  | [] => []
  | [x] => x
  | x :: rest => x ++ sep ++ join sep rest
  end.

(** [s.split(c)] for a one-character separator: the pieces between
    consecutive separators, empty pieces included. *)
Fixpoint split (sep : codeUnit) (s : jsstring) : list jsstring :=
  match s with
  | [] => [[]]
  | c :: r =>
      if N.eqb c sep then [] :: split sep r
      else match split sep r with
           | seg :: segs => (c :: seg) :: segs
           | [] => [[c]]
           end
  end.

Fixpoint dropWhile (p : codeUnit -> bool) (s : jsstring) : jsstring :=
  match s with
  | [] => []
  | c :: r => if p c then dropWhile p r else s
  end.

(** Decimal rendering of a natural number inside a template literal. *)
Definition decimal (n : N) : jsstring :=
  js (NilZero.string_of_uint (N.to_uint n)).

(** ** ASCII case mapping

    [toUpperCase] and [toLowerCase] follow the Unicode tables, which are
    not part of the script.  On a string made of ASCII code units only they
    are the familiar letter shifts; everywhere else the result is whatever
    the tables of the running engine say, and the embedding takes those
    tables as a parameter. *)

Definition isAscii (c : codeUnit) : bool := N.ltb c 128.
Definition isUpperAZ (c : codeUnit) : bool := N.leb 65 c && N.leb c 90.
Definition isLowerAZ (c : codeUnit) : bool := N.leb 97 c && N.leb c 122.
Definition isDigit (c : codeUnit) : bool := N.leb 48 c && N.leb c 57.

Definition asciiUpper (c : codeUnit) : codeUnit :=
  if isLowerAZ c then N.sub c 32 else c.
Definition asciiLower (c : codeUnit) : codeUnit :=
  if isUpperAZ c then N.add c 32 else c.

Record CaseTables : Type := {
  unicodeUpper : jsstring -> jsstring;
  unicodeLower : jsstring -> jsstring
}.

Definition toUpperCase (U : CaseTables) (s : jsstring) : jsstring :=
  if forallb isAscii s then List.map asciiUpper s else unicodeUpper U s.

Definition toLowerCase (U : CaseTables) (s : jsstring) : jsstring :=
  if forallb isAscii s then List.map asciiLower s else unicodeLower U s.

(** Tables that leave every non-ASCII string alone: enough to run the
    generator on ASCII documents. *)
Definition asciiTables : CaseTables :=
  {| unicodeUpper := fun s => s; unicodeLower := fun s => s |}.

End JsString.
Import JsString.

(* ================================================================== *)
(** * Regular-expression replacements used by the script *)
(* ================================================================== *)

Module Regex.

(** ** [s.replace(/[class]{min,}/g, repl)]

    The engine scans left to right; at a position where a run of at least
    [min] class characters starts it consumes the whole run (the quantifier
    is greedy) and emits [repl]; a shorter run is copied.  [run] holds the
    class characters of the current run, most recent first. *)

Definition flushRun (min : nat) (repl run : jsstring) : jsstring :=
  match run with
  | [] => []
  | _ :: _ => if Nat.leb min (List.length run) then repl else rev run
  end.

Fixpoint replaceRunsFrom (cls : codeUnit -> bool) (min : nat) (repl run s : jsstring)
  : jsstring :=
  match s with
  | [] => flushRun min repl run
  | c :: r =>
      if cls c then replaceRunsFrom cls min repl (c :: run) r
      else flushRun min repl run ++ c :: replaceRunsFrom cls min repl [] r
  end.

Definition replaceRuns (cls : codeUnit -> bool) (min : nat) (repl s : jsstring) : jsstring :=
  replaceRunsFrom cls min repl [] s.

(** ** [s.replace(/^_+|_+$/g, '')]

    At index 0 the first alternative removes the leading run of
    underscores.  At every later index only [_+$] can match, and it does
    exactly when everything from there to the end is underscores. *)

Definition underscore : codeUnit := 95%N.

Definition isUnderscore (c : codeUnit) : bool := N.eqb c underscore.

Fixpoint stripTrailingUnderscores (s : jsstring) : jsstring :=
  match s with
  | [] => []
  | c :: r =>
      if forallb isUnderscore s then []
      else c :: stripTrailingUnderscores r
  end.

Definition stripEdgeUnderscores (s : jsstring) : jsstring :=
  stripTrailingUnderscores (dropWhile isUnderscore s).

(** ** [s.replace(/\{(.*?)\}/g, f($1))]

    [.] matches any code unit but the four line terminators, and [*?] is
    lazy: from an opening brace the match ends at the first closing brace,
    provided no line terminator comes before it. *)

Definition isLineTerminator (c : codeUnit) : bool :=
  N.eqb c 10 || N.eqb c 13 || N.eqb c 8232 || N.eqb c 8233.

Definition openBrace : codeUnit := 123%N.
Definition closeBrace : codeUnit := 125%N.

(** After an opening brace: the captured text and what follows the closing
    brace, or [None] when the pattern does not match here. *)
Fixpoint matchBraced (s : jsstring) : option (jsstring * jsstring) :=
  match s with
  | [] => None
  | c :: r =>
      if N.eqb c closeBrace then Some ([], r)
      else if isLineTerminator c then None
      else match matchBraced r with
           | Some (cap, rest) => Some (c :: cap, rest)
           | None => None
           end
  end.

Fixpoint replaceBracedFuel (fuel : nat) (f : jsstring -> jsstring) (s : jsstring)
  : jsstring :=
  match fuel with
  | O => s
  | S fuel' =>
      match s with
      | [] => []
      | c :: r =>
          if N.eqb c openBrace then
            match matchBraced r with
            | Some (cap, rest) => f cap ++ replaceBracedFuel fuel' f rest
            | None => c :: replaceBracedFuel fuel' f r
            end
          else c :: replaceBracedFuel fuel' f r
      end
  end.

(** Every step consumes at least one code unit, so the length of the
    string is enough fuel. *)
Definition replaceBraced (f : jsstring -> jsstring) (s : jsstring) : jsstring :=
  replaceBracedFuel (List.length s) f s.

End Regex.
Import Regex.

(* ================================================================== *)
(** * Identifier sanitizer *)
(* ================================================================== *)

(** The class [[a-zA-Z0-9_]]. *)
Definition isWordChar (c : codeUnit) : bool :=
  isLowerAZ c || isUpperAZ c || isDigit c || isUnderscore c.

(** [toSafeName(str)]:
    [str.replace(/[^a-zA-Z0-9_]+/g, '_').replace(/^_+|_+$/g, '').replace(/_{2,}/g, '_')]. *)
Definition toSafeName (str : jsstring) : jsstring :=
  replaceRuns isUnderscore 2 (js "_")
    (stripEdgeUnderscores
       (replaceRuns (fun c => negb (isWordChar c)) 1 (js "_") str)).

(* ================================================================== *)
(** * Data model: the parsed OpenAPI document *)
(* ================================================================== *)

(** What [op.tags] can be, as far as [pickTags] tells the cases apart. *)
Inductive TagsField : Type :=
| TagsAbsent
| TagsNotArray
| TagsArray (l : list jsstring).

(** A parameter object; [name] and [in] may be missing. *)
Record ParameterObject : Type := {
  p_name : option jsstring;
  p_in : option jsstring
}.

(** An operation object.  An entry of [parameters] is [None] when the
    array holds [null] there; [requestBody] is the truthiness of
    [op.requestBody], the only thing the generator reads of it. *)
Record Operation : Type := {
  operationId : option jsstring;
  tags : TagsField;
  summary : option jsstring;
  parameters : option (list (option ParameterObject));
  requestBody : bool
}.

(** A path item: its keys in enumeration order.  The value under a key
    that is not an HTTP method is never read. *)
Definition PathItem := list (jsstring * Operation).

Record OpenApiDocument : Type := {
  paths : option (list (jsstring * PathItem))
}.

(** [{ ...op, method, pathKey, fnName }] *)
Record IndexedOperation : Type := {
  io_op : Operation;
  io_method : jsstring;
  io_pathKey : jsstring;
  io_fnName : jsstring
}.

(** Truthiness of an optional string property. *)
Definition truthyOpt (o : option jsstring) : bool :=
  match o with Some s => truthy s | None => false end.

(** [o || ''] *)
Definition orEmpty (o : option jsstring) : jsstring :=
  match o with Some s => if truthy s then s else [] | None => [] end.

(* ================================================================== *)
(** * Function names, parameter names, tags *)
(* ================================================================== *)

(** [s.replace(/\{.*?\}/g, '')] *)
Definition stripPlaceholders (s : jsstring) : jsstring :=
  replaceBraced (fun _ => []) s.

Definition slash : codeUnit := 47%N.

(** [pathKey.split('/').filter(Boolean).map(...).filter(Boolean).join('_')] *)
Definition fromPath (pathKey : jsstring) : jsstring :=
  join (js "_")
    (filter truthy
       (List.map stripPlaceholders
          (filter truthy (split slash pathKey)))).

Definition opFunctionName (op : Operation) (pathKey method : jsstring) : jsstring :=
  if truthyOpt (operationId op) then toSafeName (orEmpty (operationId op))
  else
    let fp := fromPath pathKey in
    let base := method ++ js "_" ++ (if truthy fp then fp else js "root") in
    toSafeName base.

(** A JavaScript [Set] of strings: its elements in insertion order. *)
Module JsSet.

Definition t := list jsstring.

Definition has (x : jsstring) (s : t) : bool := existsb (jsstring_eqb x) s.

Definition add (s : t) (x : jsstring) : t := if has x s then s else s ++ [x].

(** [new Set(iterable)] adds the elements one after the other. *)
Definition ofList (l : list jsstring) : t := fold_left add l [].

End JsSet.

(** [paramList(params)]: the loop pushes [p.name] unless [!p || !p.name];
    the result is [Array.from(new Set(names))]. *)
Fixpoint paramNames (params : list (option ParameterObject)) : list jsstring :=
  match params with
  | [] => []
  | None :: rest => paramNames rest
  | Some p :: rest =>
      match p_name p with
      | Some n => if truthy n then n :: paramNames rest else paramNames rest
      | None => paramNames rest
      end
  end.

Definition paramList (params : list (option ParameterObject)) : list jsstring :=
  JsSet.ofList (paramNames params).

(** [pathKey.replace(/\{(.*?)\}/g, '${pathParams.$1}')] *)
Definition buildPathTemplate (pathKey : jsstring) : jsstring :=
  replaceBraced (fun cap => js "${pathParams." ++ cap ++ js "}") pathKey.

(** [pickTags(op)] *)
Definition pickTags (op : Operation) : list jsstring :=
  match tags op with
  | TagsArray (t :: ts) => t :: ts
  | _ => [js "default"]
  end.

(* ================================================================== *)
(** * Operation indexer *)
(* ================================================================== *)

(** A JavaScript [Map] keyed by strings: its entries in insertion order,
    one per key. *)
Module JsMap.

Section WithValue.
Variable V : Type.

Definition t := list (jsstring * V).

Fixpoint get (k : jsstring) (m : t) : option V :=
  match m with
  | [] => None
  | (k', v) :: rest => if jsstring_eqb k k' then Some v else get k rest
  end.

Definition has (k : jsstring) (m : t) : bool :=
  match get k m with Some _ => true | None => false end.

(** [m.set(k, v)]: an existing key keeps its place. *)
Fixpoint set (k : jsstring) (v : V) (m : t) : t :=
  match m with
  | [] => [(k, v)]
  | (k', v') :: rest =>
      if jsstring_eqb k k' then (k', v) :: rest else (k', v') :: set k v rest
  end.

(** The value stored under [k] changed in place, as [m.get(k).push(x)]
    does to the array held by the map. *)
Fixpoint modify (k : jsstring) (f : V -> V) (m : t) : t :=
  match m with
  | [] => []
  | (k', v') :: rest =>
      if jsstring_eqb k k' then (k', f v') :: rest else (k', v') :: modify k f rest
  end.

Definition keys (m : t) : list jsstring := List.map fst m.

End WithValue.

End JsMap.

Definition TagGroups := JsMap.t (list IndexedOperation).

Definition METHODS : list jsstring :=
  [js "get"; js "post"; js "put"; js "patch"; js "delete"; js "options"; js "head"].

(** [METHODS.includes(method)] *)
Definition isMethod (m : jsstring) : bool := existsb (jsstring_eqb m) METHODS.

(** The body of [for (const tag of tags)]. *)
Definition addUnderTag (entry : IndexedOperation) (byTag : TagGroups) (tag : jsstring)
  : TagGroups :=
  let byTag1 := if JsMap.has tag byTag then byTag else JsMap.set tag [] byTag in
  JsMap.modify tag (fun bucket => bucket ++ [entry]) byTag1.

Definition mkEntry (pathKey method : jsstring) (op : Operation) : IndexedOperation :=
  {| io_op := op;
     io_method := method;
     io_pathKey := pathKey;
     io_fnName := opFunctionName op pathKey method |}.

(** The body of [for (const method of Object.keys(item))]. *)
Definition addOperation (pathKey : jsstring) (byTag : TagGroups)
  (member : jsstring * Operation) : TagGroups :=
  let (method, op) := member in
  if negb (isMethod method) then byTag
  else fold_left (addUnderTag (mkEntry pathKey method op)) (pickTags op) byTag.

(** The body of [for (const [pathKey, item] of Object.entries(paths))]. *)
Definition addPathItem (byTag : TagGroups) (entry : jsstring * PathItem) : TagGroups :=
  let (pathKey, item) := entry in
  fold_left (addOperation pathKey) item byTag.

Definition pathsOrEmpty (openapi : OpenApiDocument) : list (jsstring * PathItem) :=
  match paths openapi with Some p => p | None => [] end.

Definition groupOperationsByTag (openapi : OpenApiDocument) : TagGroups :=
  fold_left addPathItem (pathsOrEmpty openapi) [].

(* ================================================================== *)
(** * Errors *)
(* ================================================================== *)

(** The exceptions the script can meet: [new Error(message)], the
    [TypeError] of a property read on [undefined] or [null], the
    [SyntaxError] of [JSON.parse], and the errors node reports for the
    network and the file system. *)
Inductive JsError : Type :=
| Error (message : jsstring)
| TypeError
| SyntaxError
| SystemError (code : jsstring).

Inductive result (A : Type) : Type :=
| Ok (a : A)
| Throw (e : JsError).

Arguments Ok {A} a.
Arguments Throw {A} e.

Definition bindR {A B : Type} (m : result A) (k : A -> result B) : result B :=
  match m with
  | Ok a => k a
  | Throw e => Throw e
  end.

(* ================================================================== *)
(** * Template emitter *)
(* ================================================================== *)

Definition nl : jsstring := [10%N].

(** The text of the template literal returned by [genBaseJs], line by
    line; the escape [\/] of the literal stands for a plain slash. *)
Definition genBaseJsLines : list jsstring :=
  [
    js "// Auto-generated (safe to edit). Shared fetch helpers.";
    js "export class AuthHttpClient {";
    js "  constructor({ baseUrl = '', defaultHeaders = {}, getToken } = {}) {";
    js "    this.baseUrl = baseUrl.replace(//$/, '');";
    js "    this.defaultHeaders = defaultHeaders;";
    js "    this.getToken = getToken; // optional async () => string";
    js "  }";
    js "";
    js "  async request({ path, method = 'GET', query, headers, body, formData, accept = 'application/json', contentType }) {";
    js "    const url = new URL(this.baseUrl + path, typeof window !== 'undefined' ? window.location.origin : 'http://local');";
    js "    if (query) {";
    js "      Object.entries(query).forEach(([k, v]) => {";
    js "        if (v === undefined || v === null) return;";
    js "        if (Array.isArray(v)) v.forEach((vv) => url.searchParams.append(k, vv));";
    js "        else url.searchParams.set(k, String(v));";
    js "      });";
    js "    }";
    js "";
    js "    const hdrs = { ...this.defaultHeaders, ...(headers || {}) };";
    js "    if (accept && !hdrs['Accept']) hdrs['Accept'] = accept;";
    js "";
    js "    let bodyInit = undefined;";
    js "    if (formData) {";
    js "      bodyInit = new FormData();";
    js "      Object.entries(formData).forEach(([k, v]) => {";
    js "        if (v !== undefined && v !== null) bodyInit.append(k, v);";
    js "      });";
    js "    } else if (body !== undefined) {";
    js "      if (!contentType) contentType = 'application/json';";
    js "      hdrs['Content-Type'] = contentType;";
    js "      bodyInit = contentType.includes('json') ? JSON.stringify(body) : body;";
    js "    }";
    js "";
    js "    if (this.getToken) {";
    js "      const token = await this.getToken();";
    js "      if (token) hdrs['Authorization'] = hdrs['Authorization'] || ('Bearer ' + token);";
    js "    }";
    js "";
    js "    const resp = await fetch(url.toString(), { method, headers: hdrs, body: bodyInit, credentials: 'include' });";
    js "    if (!resp.ok) {";
    js "      const txt = await resp.text().catch(() => '');";
    js "      const err = new Error('HTTP ' + resp.status + ' ' + resp.statusText + ': ' + txt);";
    js "      err.status = resp.status;";
    js "      err.body = txt;";
    js "      throw err;";
    js "    }";
    js "    const ct = resp.headers.get('content-type') || '';";
    js "    if (accept && accept.includes('json') && ct.includes('json')) return resp.json();";
    js "    return resp.text();";
    js "  }";
    js "}"
  ].

Definition genBaseJs : jsstring :=
  List.concat (List.map (fun l => l ++ nl) genBaseJsLines).

(** [toSafeName(tag[0].toUpperCase() + tag.slice(1))]: [tag[0]] is
    [undefined] for the empty string, and reading a property of
    [undefined] throws. *)
Definition className (U : CaseTables) (tag : jsstring) : result jsstring :=
  match tag with
  | [] => Throw TypeError
  | c :: rest => Ok (toSafeName (toUpperCase U [c] ++ rest))
  end.

(** [p.in === loc] *)
Definition isIn (loc : jsstring) (p : ParameterObject) : bool :=
  match p_in p with
  | Some l => jsstring_eqb l loc
  | None => false
  end.

(** [params.filter((p) => p.in === loc)]: the callback reads a property
    of every element, which throws on [null]. *)
Fixpoint filterIn (loc : jsstring) (params : list (option ParameterObject))
  : result (list (option ParameterObject)) :=
  match params with
  | [] => Ok []
  | None :: _ => Throw TypeError
  | Some p :: rest =>
      bindR (filterIn loc rest) (fun kept =>
      Ok (if isIn loc p then Some p :: kept else kept))
  end.

(** [op.parameters || []] *)
Definition parametersOrEmpty (op : Operation) : list (option ParameterObject) :=
  match parameters op with Some ps => ps | None => [] end.

Definition nonEmpty (A : Type) (l : list A) : bool :=
  match l with [] => false | _ :: _ => true end.

(** The [args] array of one method. *)
Definition methodArgs (pathParams queryParams headerParams : list jsstring)
  (hasBody : bool) : list jsstring :=
  (if nonEmpty pathParams then [js "pathParams"] else []) ++
  (if nonEmpty queryParams then [js "query"] else []) ++
  (if nonEmpty headerParams then [js "headers"] else []) ++
  (if hasBody then [js "body"] else []).

(** The three parameter buckets of an operation. *)
Definition paramBuckets (op : IndexedOperation)
  : result (list jsstring * list jsstring * list jsstring) :=
  let ps := parametersOrEmpty (io_op op) in
  bindR (filterIn (js "path") ps) (fun inPath =>
  bindR (filterIn (js "query") ps) (fun inQuery =>
  bindR (filterIn (js "header") ps) (fun inHeader =>
  Ok (paramList inPath, paramList inQuery, paramList inHeader)))).

(** The argument list of the method generated for [op]. *)
Definition operationArgs (op : IndexedOperation) : result (list jsstring) :=
  bindR (paramBuckets op) (fun '(pathParams, queryParams, headerParams) =>
  Ok (methodArgs pathParams queryParams headerParams (requestBody (io_op op)))).

(** The line that opens the method. *)
Definition signatureLine (fn : jsstring) (args : list jsstring) : jsstring :=
  js "  async " ++ fn ++ js "(" ++ join (js ", ") args ++ js ") {".

(** The lines pushed by one turn of [for (const op of operations)]. *)
Definition renderOperation (U : CaseTables) (op : IndexedOperation)
  : result (list jsstring) :=
  let fn := io_fnName op in
  let pathTmpl := buildPathTemplate (io_pathKey op) in
  let method := toUpperCase U (io_method op) in
  bindR (paramBuckets op) (fun '(pathParams, queryParams, headerParams) =>
  let hasBody := requestBody (io_op op) in
  let args := methodArgs pathParams queryParams headerParams hasBody in
  Ok ([ js "  /**";
        js "   * " ++ orEmpty (summary (io_op op));
        js "   * " ++ method ++ js " " ++ io_pathKey op;
        js "   */";
        signatureLine fn args;
        js "    return this.http.request({";
        js "      path: `" ++ pathTmpl ++ js "`,";
        js "      method: '" ++ method ++ js "'," ] ++
      (if nonEmpty queryParams then [js "      query: query,"] else []) ++
      (if nonEmpty headerParams then [js "      headers: headers,"] else []) ++
      (if hasBody then [js "      body: body,"] else []) ++
      [ js "    });";
        js "  }" ])).

Fixpoint renderOperations (U : CaseTables) (ops : list IndexedOperation)
  : result (list jsstring) :=
  match ops with
  | [] => Ok []
  | op :: rest =>
      bindR (renderOperation U op) (fun ls =>
      bindR (renderOperations U rest) (fun more => Ok (ls ++ more)))
  end.

(** The line declaring the class of a module. *)
Definition classLine (cn : jsstring) : jsstring :=
  js "export class " ++ cn ++ js "Api {".

(** The [lines] array of [genApiModule(tag, operations)]. *)
Definition genApiModuleLines (U : CaseTables) (tag : jsstring)
  (operations : list IndexedOperation) : result (list jsstring) :=
  bindR (className U tag) (fun cn =>
  bindR (renderOperations U operations) (fun body =>
  Ok ([ js "// Auto-generated API for tag: " ++ tag;
        js "import { AuthHttpClient } from './base.js';";
        js "";
        classLine cn;
        js "  /** @param {AuthHttpClient} http */";
        js "  constructor(http) { this.http = http; }" ] ++
      body ++
      [ js "}";
        js "";
        js "export default " ++ cn ++ js "Api;" ]))).

Definition genApiModule (U : CaseTables) (tag : jsstring)
  (operations : list IndexedOperation) : result jsstring :=
  bindR (genApiModuleLines U tag operations) (fun lines => Ok (join nl lines)).

(* ================================================================== *)
(** * Spec loader *)
(* ================================================================== *)

(** The two node modules a request can go through. *)
Inductive Lib : Type := Https | Http.

(** What the callback of [lib.get] sees of a response: [res.statusCode],
    [res.headers.location] and the chunks of the body put together. *)
Record Response : Type := {
  statusCode : option N;
  location : option jsstring;
  body : jsstring
}.

(** A request either ends in an ['error'] event or hands a response to
    the callback. *)
Inductive HttpOutcome : Type :=
| RequestError (e : JsError)
| Responded (res : Response).

(** File-system calls made through [fs/promises]. *)
Inductive FsOp : Type :=
| FsMkdir (dir : jsstring)
| FsWriteFile (file content : jsstring).

(** Everything outside the script: the Unicode case tables, the network,
    [JSON.parse] (read at the document type of the data model), node's
    [path] module and the faults of the file system. *)
Record World : Type := {
  caseTables : CaseTables;
  httpGet : Lib -> jsstring -> HttpOutcome;
  jsonParse : jsstring -> option OpenApiDocument;
  pathResolve : jsstring -> jsstring;
  pathJoin : jsstring -> jsstring -> jsstring;
  pathDirname : jsstring -> jsstring;
  fsFault : FsOp -> option JsError
}.

Definition DEFAULT_SPEC : jsstring :=
  js "https://auth.hvdhub.com/swagger/v1/swagger.json".

(** [s.startsWith(prefix)] *)
Fixpoint startsWith (prefix s : jsstring) : bool :=
  match prefix, s with
  | [], _ => true
  | _ :: _, [] => false
  | p :: prefix', c :: s' => N.eqb p c && startsWith prefix' s'
  end.

(** [res.statusCode && res.statusCode >= lo] *)
Definition statusAtLeast (lo : N) (res : Response) : bool :=
  match statusCode res with
  | Some n => negb (N.eqb n 0) && N.leb lo n
  | None => false
  end.

Definition statusBelow (hi : N) (res : Response) : bool :=
  match statusCode res with
  | Some n => N.ltb n hi
  | None => false
  end.

Definition statusOf (res : Response) : N :=
  match statusCode res with Some n => n | None => 0%N end.

(** The redirect test of [fetchJson]. *)
Definition isRedirect (res : Response) : bool :=
  statusAtLeast 300 res && statusBelow 400 res && truthyOpt (location res).

(** [url.startsWith('https') ? https : http] *)
Definition libOf (url : jsstring) : Lib :=
  if startsWith (js "https") url then Https else Http.

Definition downloadError (status : N) : JsError :=
  Error (js "Failed to download spec: " ++ decimal status).

(** [fetchJson(url)].  The promise settles with [Some] outcome; [fuel]
    bounds the number of requests, and [None] means that the chain of
    redirects is longer than that. *)
Fixpoint fetchJson (W : World) (fuel : nat) (url : jsstring)
  : option (result OpenApiDocument) :=
  match fuel with
  | O => None
  | S fuel' =>
      match httpGet W (libOf url) url with
      | RequestError e => Some (Throw e)
      | Responded res =>
          if isRedirect res then
            fetchJson W fuel' (orEmpty (location res))
          else if statusAtLeast 400 res then
            Some (Throw (downloadError (statusOf res)))
          else
            match jsonParse W (body res) with
            | Some doc => Some (Ok doc)
            | None => Some (Throw SyntaxError)
            end
      end
  end.

(* ================================================================== *)
(** * Generation orchestrator *)
(* ================================================================== *)

(** Computations that call the file system: they take the calls made so
    far and return their outcome with the calls made by then. *)
Definition Fs (A : Type) : Type := list FsOp -> result A * list FsOp.

Definition ret {A : Type} (a : A) : Fs A := fun done => (Ok a, done).

Definition bind {A B : Type} (m : Fs A) (k : A -> Fs B) : Fs B :=
  fun done =>
    match m done with
    | (Ok a, done') => k a done'
    | (Throw e, done') => (Throw e, done')
    end.

Definition lift {A : Type} (r : result A) : Fs A := fun done => (r, done).

Notation "x <- m ;; k" := (bind m (fun x => k))
  (at level 61, m at next level, right associativity).
Notation "m ;;; k" := (bind m (fun _ => k))
  (at level 61, right associativity).

(** One call of the file system: it fails as the world says, and is
    recorded when it succeeds. *)
Definition perform (W : World) (op : FsOp) : Fs unit :=
  fun done =>
    match fsFault W op with
    | Some e => (Throw e, done)
    | None => (Ok tt, done ++ [op])
    end.

Definition ensureDir (W : World) (p : jsstring) : Fs unit :=
  perform W (FsMkdir p).

Definition writeFile (W : World) (file content : jsstring) : Fs unit :=
  ensureDir W (pathDirname W file) ;;;
  perform W (FsWriteFile file content).

(** An element of the [exports] array. *)
Record Export : Type := {
  ex_tag : jsstring;
  ex_file : jsstring;
  ex_className : jsstring
}.

(** [`${toSafeName(tag.toLowerCase())}-api.js`] *)
Definition moduleFileName (U : CaseTables) (tag : jsstring) : jsstring :=
  toSafeName (toLowerCase U tag) ++ js "-api.js".

(** [for (const [tag, ops] of grouped.entries())], with the [exports]
    pushed so far. *)
Fixpoint emitModules (W : World) (outDir : jsstring) (grouped : TagGroups)
  (exports : list Export) : Fs (list Export) :=
  match grouped with
  | [] => ret exports
  | (tag, ops) :: rest =>
      text <- lift (genApiModule (caseTables W) tag ops) ;;
      let file := pathJoin W outDir (moduleFileName (caseTables W) tag) in
      writeFile W file text ;;;
      cn <- lift (className (caseTables W) tag) ;;
      emitModules W outDir rest
        (exports ++ [{| ex_tag := tag;
                        ex_file := moduleFileName (caseTables W) tag;
                        ex_className := cn |}])
  end.

(** A line of the barrel file. *)
Definition barrelLine (e : Export) : jsstring :=
  js "export { default as " ++ ex_className e ++ js "Api } from './" ++
  ex_file e ++ js "';".

Definition indexLines (exports : list Export) : list jsstring :=
  List.map barrelLine exports ++ [js "export * from './base.js';"].

(** [main] once the document is there. *)
Definition generate (W : World) (spec : OpenApiDocument) : Fs unit :=
  let outDir := pathResolve W (js "src/auth-client") in
  ensureDir W outDir ;;;
  writeFile W (pathJoin W outDir (js "base.js")) genBaseJs ;;;
  let grouped := groupOperationsByTag spec in
  exports <- emitModules W outDir grouped [] ;;
  writeFile W (pathJoin W outDir (js "index.js")) (join nl (indexLines exports)).

(** [process.argv[2] || process.env.SPEC_URL || DEFAULT_SPEC] *)
Definition specUrlOf (argv2 envSpecUrl : option jsstring) : jsstring :=
  if truthyOpt argv2 then orEmpty argv2
  else if truthyOpt envSpecUrl then orEmpty envSpecUrl
  else DEFAULT_SPEC.

(** [main()]: the promise it returns is fulfilled ([Ok]) or rejected
    ([Throw]); the second component lists the file-system calls that were
    made, in order.  Console output is not modelled. *)
Definition main (W : World) (fuel : nat) (argv2 envSpecUrl : option jsstring)
  : option (result unit * list FsOp) :=
  match fetchJson W fuel (specUrlOf argv2 envSpecUrl) with
  | None => None
  | Some (Throw e) => Some (Throw e, [])
  | Some (Ok spec) => Some (generate W spec [])
  end.

(* ================================================================== *)
(** * Vocabulary of the properties *)
(* ================================================================== *)

Definition startsWithUnderscore (s : jsstring) : bool :=
  match s with c :: _ => isUnderscore c | [] => false end.

Definition endsWithUnderscore (s : jsstring) : bool :=
  startsWithUnderscore (rev s).

(** Two underscores next to each other somewhere in the string. *)
Fixpoint hasDoubleUnderscore (s : jsstring) : bool :=
  match s with
  | a :: r =>
      match r with
      | b :: _ => (isUnderscore a && isUnderscore b) || hasDoubleUnderscore r
      | [] => false
      end
  | [] => false
  end.

(** An ASCII [IdentifierName]: what may stand as the name of a method in
    a class body. *)
Definition isIdentifierStart (c : codeUnit) : bool :=
  isLowerAZ c || isUpperAZ c || isUnderscore c || N.eqb c 36.

Definition isIdentifierPart (c : codeUnit) : bool :=
  isIdentifierStart c || isDigit c.

Definition isIdentifierName (s : jsstring) : bool :=
  match s with
  | c :: rest => isIdentifierStart c && forallb isIdentifierPart rest
  | [] => false
  end.

(** The string [base] of [opFunctionName]. *)
Definition derivedBase (pathKey method : jsstring) : jsstring :=
  method ++ js "_" ++ (if truthy (fromPath pathKey) then fromPath pathKey else js "root").

(** A path segment seen as literal text and placeholders; a literal holds
    no opening brace, the name of a placeholder no closing brace and no
    line terminator. *)
Inductive Piece : Type :=
| Literal (text : jsstring)
| Placeholder (name : jsstring).

Definition renderPiece (p : Piece) : jsstring :=
  match p with
  | Literal text => text
  | Placeholder name => openBrace :: name ++ [closeBrace]
  end.

Definition renderPieces (ps : list Piece) : jsstring :=
  List.concat (List.map renderPiece ps).

Definition literalText (ps : list Piece) : jsstring :=
  List.concat
    (List.map (fun p => match p with Literal text => text | Placeholder _ => [] end) ps).

Definition plainPiece (p : Piece) : bool :=
  match p with
  | Literal text => forallb (fun c => negb (N.eqb c openBrace)) text
  | Placeholder name =>
      forallb (fun c => negb (N.eqb c closeBrace) && negb (isLineTerminator c)) name
  end.



(** A list without its repetitions, every element staying where it is
    first seen. *)
Fixpoint firstOccurrences (l : list jsstring) : list jsstring :=
  match l with
  | [] => []
  | x :: rest =>
      x :: filter (fun y => negb (jsstring_eqb y x)) (firstOccurrences rest)
  end.

(** A parameter that has a name the generator keeps. *)
Definition isNamed (p : ParameterObject) : bool := truthyOpt (p_name p).

(** The bucket of a tag, empty when the tag has none. *)
Definition bucket (tag : jsstring) (groups : TagGroups) : list IndexedOperation :=
  match JsMap.get tag groups with Some ops => ops | None => [] end.

(** The records that stand for the operation at [(pathKey, method)]. *)
Definition isEntryOf (pathKey method : jsstring) (e : IndexedOperation) : bool :=
  jsstring_eqb (io_pathKey e) pathKey && jsstring_eqb (io_method e) method.

Definition recordsOf (pathKey method tag : jsstring) (groups : TagGroups) : nat :=
  List.length (filter (isEntryOf pathKey method) (bucket tag groups)).

(** The keys of an object are pairwise distinct. *)
Fixpoint distinctKeys (A : Type) (l : list (jsstring * A)) : bool :=
  match l with
  | [] => true
  | (k, _) :: rest =>
      negb (existsb (fun kv => jsstring_eqb (fst kv) k) rest) && distinctKeys rest
  end.

Definition wellFormed (openapi : OpenApiDocument) : bool :=
  distinctKeys (pathsOrEmpty openapi) &&
  forallb (fun entry => distinctKeys (snd entry)) (pathsOrEmpty openapi).

(** The download of [url] fails with [e]: the request errors, the
    response has a status of 400 or more, the body of an accepted response
    is not valid JSON, or the response is a redirect and the download of
    its target fails with [e]. *)
Inductive DownloadFails (W : World) : jsstring -> JsError -> Prop :=
| NetworkFailure url e :
    httpGet W (libOf url) url = RequestError e ->
    DownloadFails W url e
| StatusFailure url res n :
    httpGet W (libOf url) url = Responded res ->
    statusCode res = Some n ->
    (400 <= n)%N ->
    DownloadFails W url (downloadError n)
| ParseFailure url res :
    httpGet W (libOf url) url = Responded res ->
    isRedirect res = false ->
    statusAtLeast 400 res = false ->
    jsonParse W (body res) = None ->
    DownloadFails W url SyntaxError
| RedirectedFailure url res target e :
    httpGet W (libOf url) url = Responded res ->
    isRedirect res = true ->
    location res = Some target ->
    DownloadFails W target e ->
    DownloadFails W url e.

(** An entry of a [parameters] array that sits in location [loc]. *)
Definition located (loc : jsstring) (o : option ParameterObject) : bool :=
  match o with Some p => isIn loc p | None => false end.

(** The names an operation declares in location [loc], in the words of
    the specification: the named parameters of that location, repetitions
    dropped, first-seen order kept. *)
Definition namesIn (loc : jsstring) (params : list (option ParameterObject))
  : list jsstring :=
  firstOccurrences (paramNames (filter (located loc) params)).

(** Some named parameter is declared in location [loc]. *)
Definition declares (loc : jsstring) (ps : list ParameterObject) : bool :=
  existsb (fun p => isNamed p && isIn loc p) ps.

(** The argument list in the words of the specification: [pathParams],
    [query], [headers], [body], in this order, each present only when it
    applies. *)
Definition positionalArgs (ps : list ParameterObject) (hasBody : bool) : list jsstring :=
  (if declares (js "path") ps then [js "pathParams"] else []) ++
  (if declares (js "query") ps then [js "query"] else []) ++
  (if declares (js "header") ps then [js "headers"] else []) ++
  (if hasBody then [js "body"] else []).

(** The records one member of a path item contributes to the bucket of
    [tag]: one per occurrence of the tag among the operation's tags. *)
Definition recordsFrom (tag pathKey : jsstring) (member : jsstring * Operation)
  : list IndexedOperation :=
  if isMethod (fst member) then
    repeat (mkEntry pathKey (fst member) (snd member))
      (count_occ jsstring_eq_dec (pickTags (snd member)) tag)
  else [].

(** The bucket of [tag] as the traversal order dictates it: paths in
    document order, then the keys of each path item in document order. *)
Definition expectedBucket (tag : jsstring) (openapi : OpenApiDocument)
  : list IndexedOperation :=
  flat_map (fun entry => flat_map (recordsFrom tag (fst entry)) (snd entry))
    (pathsOrEmpty openapi).


(* ================================================================== *)
(** * Sample inputs *)
(* ================================================================== *)

(** Two parameters named [page], in different locations. *)
Definition pageExample : IndexedOperation :=
  mkEntry (js "/items") (js "get")
    {| operationId := None; tags := TagsAbsent; summary := None;
       parameters := Some [ Some {| p_name := Some (js "page"); p_in := Some (js "query") |};
                            Some {| p_name := Some (js "page"); p_in := Some (js "header") |} ];
       requestBody := false |}.

(** An operation with query parameters only. *)
Definition queryOnlyExample : IndexedOperation :=
  mkEntry (js "/items") (js "get")
    {| operationId := Some (js "listItems"); tags := TagsAbsent; summary := None;
       parameters := Some [ Some {| p_name := Some (js "page"); p_in := Some (js "query") |};
                            Some {| p_name := Some (js "size"); p_in := Some (js "query") |} ];
       requestBody := false |}.

(** An operation whose [tags] array is empty. *)
Definition untaggedExample : OpenApiDocument :=
  {| paths := Some
       [ (js "/ping",
          [ (js "get",
             {| operationId := None; tags := TagsArray []; summary := None;
                parameters := None; requestBody := false |}) ]) ] |}.

(** An operation under two tags. *)
Definition twoTagsExample : OpenApiDocument :=
  {| paths := Some
       [ (js "/pets",
          [ (js "get",
             {| operationId := Some (js "listPets"); tags := TagsArray [js "a"; js "b"];
                summary := None; parameters := None; requestBody := false |}) ]) ] |}.

(** An operation that lists the same tag twice. *)
Definition repeatedTagExample : OpenApiDocument :=
  {| paths := Some
       [ (js "/pets",
          [ (js "get",
             {| operationId := Some (js "listPets"); tags := TagsArray [js "a"; js "a"];
                summary := None; parameters := None; requestBody := false |}) ]) ] |}.

(** A server that answers every request with status 503. *)
Definition unavailableWorld : World :=
  {| caseTables := asciiTables;
     httpGet := fun _ _ =>
       Responded {| statusCode := Some 503%N; location := None; body := [] |};
     jsonParse := fun _ => None;
     pathResolve := fun p => js "/work/" ++ p;
     pathJoin := fun a b => a ++ js "/" ++ b;
     pathDirname := fun _ => js "/work/src/auth-client";
     fsFault := fun _ => None |}.

(** An operation tagged with the empty string. *)
Definition emptyTagExample : OpenApiDocument :=
  {| paths := Some
       [ (js "/ping",
          [ (js "get",
             {| operationId := None; tags := TagsArray [js ""]; summary := None;
                parameters := None; requestBody := false |}) ]) ] |}.

(** A server that answers 200 with a body that parses to [doc], and a
    file system without faults. *)
Definition servingWorld (doc : OpenApiDocument) : World :=
  {| caseTables := asciiTables;
     httpGet := fun _ _ =>
       Responded {| statusCode := Some 200%N; location := None; body := js "{}" |};
     jsonParse := fun _ => Some doc;
     pathResolve := fun p => js "/work/" ++ p;
     pathJoin := fun a b => a ++ js "/" ++ b;
     pathDirname := fun _ => js "/work/src/auth-client";
     fsFault := fun _ => None |}.

(** Two operations whose tags differ in case only. *)
Definition caseClashExample : OpenApiDocument :=
  {| paths := Some
       [ (js "/pets",
          [ (js "get",
             {| operationId := Some (js "listPets"); tags := TagsArray [js "a"];
                summary := None; parameters := None; requestBody := false |});
            (js "post",
             {| operationId := Some (js "addPet"); tags := TagsArray [js "A"];
                summary := None; parameters := None; requestBody := true |}) ]) ] |}.

(** An operation with nothing declared. *)
Definition anonymousOp : Operation :=
  {| operationId := None; tags := TagsAbsent; summary := None;
     parameters := None; requestBody := false |}.

(* ================================================================== *)
(** * Vocabulary of the further properties *)
(* ================================================================== *)

Unset Implicit Arguments.

(** ** Names *)

(** A name that [toSafeName] has nothing to do on. *)
Definition isSafeName (s : jsstring) : bool :=
  forallb isWordChar s && negb (startsWithUnderscore s) &&
  negb (endsWithUnderscore s) && negb (hasDoubleUnderscore s).

(** A letter or a digit of ASCII. *)
Definition isAlphanumeric (c : codeUnit) : bool :=
  isLowerAZ c || isUpperAZ c || isDigit c.

Definition startsWithDigit (s : jsstring) : bool :=
  match s with c :: _ => isDigit c | [] => false end.

(** The text [buildPathTemplate] gives for a path seen as pieces:
    literals as they are, [{name}] turned into [${pathParams.name}]. *)
Definition templateText (ps : list Piece) : jsstring :=
  List.concat
    (List.map (fun p => match p with
                        | Literal text => text
                        | Placeholder name => js "${pathParams." ++ name ++ js "}"
                        end) ps).

(** A path written segment by segment, each segment behind a slash. *)
Definition segmentsPath (segs : list (list Piece)) : jsstring :=
  List.concat (List.map (fun seg => slash :: renderPieces seg) segs).

(** A segment of plain pieces that holds no slash. *)
Definition plainSegment (seg : list Piece) : bool :=
  forallb plainPiece seg &&
  forallb (fun c => negb (N.eqb c slash)) (renderPieces seg).

(** The literal text of the segments that have some. *)
Definition literalSegments (segs : list (list Piece)) : list jsstring :=
  filter truthy (List.map literalText segs).

(** ** Groups *)

(** The tags one member of a path item is indexed under. *)
Definition tagsFrom (member : jsstring * Operation) : list jsstring :=
  if isMethod (fst member) then pickTags (snd member) else [].

(** The tags of the document, in traversal order, with repetitions. *)
Definition allTags (openapi : OpenApiDocument) : list jsstring :=
  flat_map (fun entry => flat_map tagsFrom (snd entry)) (pathsOrEmpty openapi).

(** No bucket is empty. *)
Definition bucketsFilled (m : TagGroups) : Prop :=
  Forall (fun kv => snd kv <> []) m.

(** ** Rendered modules *)

(** The [parameters] of the operation hold no [null]. *)
Definition noNullParameter (op : IndexedOperation) : bool :=
  forallb (fun o => match o with Some _ => true | None => false end)
    (parametersOrEmpty (io_op op)).



(** The line of a method that gives the path to the transport helper. *)
Definition pathLine (template : jsstring) : jsstring :=
  js "      path: `" ++ template ++ js "`,".

(** ** Files of a run *)

(** The two calls [writeFile] makes. *)
Definition fileWrite (W : World) (file content : jsstring) : list FsOp :=
  [FsMkdir (pathDirname W file); FsWriteFile file content].

Definition moduleText (U : CaseTables) (tag : jsstring) (ops : list IndexedOperation)
  : jsstring :=
  match genApiModule U tag ops with Ok text => text | Throw _ => [] end.

Definition planEntry (U : CaseTables) (tag : jsstring) : Export :=
  {| ex_tag := tag;
     ex_file := moduleFileName U tag;
     ex_className := match className U tag with Ok cn => cn | Throw _ => [] end |}.

Definition moduleWrites (W : World) (outDir : jsstring) (grouped : TagGroups)
  : list FsOp :=
  flat_map (fun kv => fileWrite W (pathJoin W outDir (moduleFileName (caseTables W) (fst kv)))
                        (moduleText (caseTables W) (fst kv) (snd kv)))
    grouped.

(** Everything a completed run writes, in order: the directory, [base.js],
    one module per tag in the order of the groups, [index.js]. *)
Definition expectedWrites (W : World) (openapi : OpenApiDocument) : list FsOp :=
  let outDir := pathResolve W (js "src/auth-client") in
  let grouped := groupOperationsByTag openapi in
  FsMkdir outDir ::
  fileWrite W (pathJoin W outDir (js "base.js")) genBaseJs ++
  moduleWrites W outDir grouped ++
  fileWrite W (pathJoin W outDir (js "index.js"))
    (join nl (indexLines (List.map (fun kv => planEntry (caseTables W) (fst kv)) grouped))).

(** The directory or file a call is about. *)
Definition fsTarget (op : FsOp) : jsstring :=
  match op with
  | FsMkdir dir => dir
  | FsWriteFile file _ => file
  end.

(** ** Downloads *)


(** ** build.mjs: [copyDir] *)

(** What [readdir(dir, { withFileTypes: true })] gives, all the way down:
    regular files, directories with their own entries, and entries that
    are neither (links, sockets). *)
#[warnings="-register-all"]
Inductive Dirent : Type :=
| FileEntry (name : jsstring)
| DirEntry (name : jsstring) (children : list Dirent)
| OtherEntry (name : jsstring).

(** The calls [copyDir] makes on a file system without faults. *)
Inductive CopyOp : Type :=
| CopyMkdir (dir : jsstring)
| CopyFile (src dest : jsstring).

(** [entry.name === 'bundle.js' || entry.name === 'bundle.js.map'] *)
Definition isOldBundle (name : jsstring) : bool :=
  jsstring_eqb name (js "bundle.js") || jsstring_eqb name (js "bundle.js.map").

(** One turn of the loop of [copyDir(src, dest)]; [pjoin] is [path.join].
    For a directory the recursive call first makes the directory, then
    goes through its entries; an entry that is neither a directory nor a
    regular file is passed over. *)
Fixpoint copyEntry (pjoin : jsstring -> jsstring -> jsstring) (src dest : jsstring)
  (entry : Dirent) : list CopyOp :=
  match entry with
  | DirEntry name children =>
      CopyMkdir (pjoin dest name) ::
      flat_map (copyEntry pjoin (pjoin src name) (pjoin dest name)) children
  | FileEntry name =>
      if isOldBundle name then []
      else [CopyFile (pjoin src name) (pjoin dest name)]
  | OtherEntry _ => []
  end.

(** [copyDir(src, dest)] where [entries] is what [readdir(src)] gives. *)
Definition copyDir (pjoin : jsstring -> jsstring -> jsstring) (src dest : jsstring)
  (entries : list Dirent) : list CopyOp :=
  CopyMkdir dest :: flat_map (copyEntry pjoin src dest) entries.

(** [entries] hold a regular file [name] under the directories [chain]. *)
Inductive HoldsFile : list Dirent -> list jsstring -> jsstring -> Prop :=
| HoldsHere entries name :
    In (FileEntry name) entries -> HoldsFile entries [] name
| HoldsBelow entries dir children chain name :
    In (DirEntry dir children) entries ->
    HoldsFile children chain name ->
    HoldsFile entries (dir :: chain) name.

(** The file [s] is copied to [d]: it is a regular file below [src] that
    is no old bundle, and [d] is the same way down from [dest]. *)
Definition copiedAs (pjoin : jsstring -> jsstring -> jsstring) (src dest : jsstring)
  (entries : list Dirent) (s d : jsstring) : Prop :=
  exists chain name,
    HoldsFile entries chain name /\ isOldBundle name = false /\
    s = fold_left pjoin (chain ++ [name]) src /\
    d = fold_left pjoin (chain ++ [name]) dest.

(** ** Further sample inputs *)

(** A document in which a path item also holds keys that are no method. *)
Definition sharedParametersExample : OpenApiDocument :=
  {| paths := Some
       [ (js "/pets",
          [ (js "parameters", anonymousOp);
            (js "get",
             {| operationId := Some (js "listPets"); tags := TagsArray [js "pets"; js "read"];
                summary := None; parameters := None; requestBody := false |});
            (js "x-internal", anonymousOp) ]);
         (js "/owners",
          [ (js "post",
             {| operationId := None; tags := TagsArray [js "read"; js "owners"];
                summary := None; parameters := None; requestBody := true |}) ]) ] |}.

(** An operation that declares no parameter on a path with a placeholder. *)
Definition undeclaredExample : IndexedOperation :=
  mkEntry (js "/users/{id}") (js "post")
    {| operationId := Some (js "create user"); tags := TagsAbsent; summary := None;
       parameters := None; requestBody := true |}.

(** A server that redirects every request to the address it came for. *)
Definition loopingWorld : World :=
  {| caseTables := asciiTables;
     httpGet := fun _ url =>
       Responded {| statusCode := Some 302%N; location := Some url; body := [] |};
     jsonParse := fun _ => None;
     pathResolve := fun p => js "/work/" ++ p;
     pathJoin := fun a b => a ++ js "/" ++ b;
     pathDirname := fun _ => js "/work/src/auth-client";
     fsFault := fun _ => None |}.

(** A server that moved the document: the default address answers 301
    with the new one, which serves a body parsing to [doc]. *)
Definition movedWorld (doc : OpenApiDocument) : World :=
  {| caseTables := asciiTables;
     httpGet := fun _ url =>
       if jsstring_eqb url DEFAULT_SPEC then
         Responded {| statusCode := Some 301%N;
                      location := Some (js "http://mirror.test/swagger.json");
                      body := js "moved" |}
       else
         Responded {| statusCode := Some 200%N; location := None; body := js "{}" |};
     jsonParse := fun b => if jsstring_eqb b (js "{}") then Some doc else None;
     pathResolve := fun p => js "/work/" ++ p;
     pathJoin := fun a b => a ++ js "/" ++ b;
     pathDirname := fun _ => js "/work/src/auth-client";
     fsFault := fun _ => None |}.

(** A file system on which [index.js] cannot be written. *)
Definition readOnlyIndexWorld (doc : OpenApiDocument) : World :=
  {| caseTables := asciiTables;
     httpGet := fun _ _ =>
       Responded {| statusCode := Some 200%N; location := None; body := js "{}" |};
     jsonParse := fun _ => Some doc;
     pathResolve := fun p => js "/work/" ++ p;
     pathJoin := fun a b => a ++ js "/" ++ b;
     pathDirname := fun _ => js "/work/src/auth-client";
     fsFault := fun op =>
       match op with
       | FsWriteFile file _ =>
           if jsstring_eqb file (js "/work/src/auth-client/index.js")
           then Some (SystemError (js "EACCES")) else None
       | FsMkdir _ => None
       end |}.

(** A tree with old bundles, a nested directory and a link. *)
Definition publicExample : list Dirent :=
  [ FileEntry (js "index.html");
    FileEntry (js "bundle.js");
    OtherEntry (js "latest");
    DirEntry (js "assets")
      [ FileEntry (js "logo.svg"); FileEntry (js "bundle.js.map") ] ].

(** [path.join] on names that need no normalisation. *)
Definition joinSlash (a b : jsstring) : jsstring := a ++ js "/" ++ b.

(* ================================================================== *)
(** * Properties *)
(* ================================================================== *)

Unset Implicit Arguments.

(** ** Strings *)

Section Strings.

Lemma jsstring_eqb_eq (a b : jsstring) : jsstring_eqb a b = true <-> a = b.
Proof. unfold jsstring_eqb. destruct (jsstring_eq_dec a b); split; congruence. Qed.

Lemma jsstring_eqb_refl (a : jsstring) : jsstring_eqb a a = true.
Proof. now apply jsstring_eqb_eq. Qed.

Lemma jsstring_eqb_neq (a b : jsstring) : jsstring_eqb a b = false <-> a <> b.
Proof. unfold jsstring_eqb. destruct (jsstring_eq_dec a b); split; congruence. Qed.

Lemma jsstring_eqb_sym (a b : jsstring) : jsstring_eqb a b = jsstring_eqb b a.
Proof.
  destruct (jsstring_eqb b a) eqn:E.
  - apply jsstring_eqb_eq in E. subst. apply jsstring_eqb_refl.
  - apply jsstring_eqb_neq. apply jsstring_eqb_neq in E. congruence.
Qed.

End Strings.

(** ** The replacements, as the scan of the engine *)

Section ScanEquations.

Variable cls : codeUnit -> bool.
Variable min : nat.
Variable repl : jsstring.

Lemma replaceRunsFrom_run (run acc rest : jsstring) :
  forallb cls run = true ->
  replaceRunsFrom cls min repl acc (run ++ rest)
  = replaceRunsFrom cls min repl (rev run ++ acc) rest.
Proof.
  revert acc. induction run as [|c run IH]; intros acc H; simpl; auto.
  simpl in H. apply andb_prop in H as [Hc Hr]. rewrite Hc, IH by assumption.
  now rewrite <- app_assoc.
Qed.

(** A character outside the class is copied. *)
Lemma replaceRuns_other (c : codeUnit) (rest : jsstring) :
  cls c = false ->
  replaceRuns cls min repl (c :: rest) = c :: replaceRuns cls min repl rest.
Proof. unfold replaceRuns. simpl. now intros ->. Qed.

(** A maximal run of class characters is replaced when it has at least
    [min] characters, and copied otherwise. *)
Lemma replaceRuns_run (c : codeUnit) (run rest : jsstring) :
  forallb cls (c :: run) = true ->
  match rest with [] => true | d :: _ => negb (cls d) end = true ->
  replaceRuns cls min repl ((c :: run) ++ rest)
  = (if Nat.leb min (List.length (c :: run)) then repl else c :: run)
    ++ replaceRuns cls min repl rest.
Proof.
  intros Hrun Hrest. unfold replaceRuns.
  rewrite replaceRunsFrom_run by assumption. rewrite app_nil_r.
  assert (F : flushRun min repl (rev (c :: run))
              = if Nat.leb min (List.length (c :: run)) then repl else c :: run).
  { unfold flushRun. destruct (rev (c :: run)) eqn:E.
    - apply (f_equal (@List.length _)) in E. rewrite length_rev in E. discriminate.
    - rewrite <- E, length_rev, rev_involutive. reflexivity. }
  destruct rest as [|d rest]; cbn [replaceRunsFrom].
  - now rewrite F, app_nil_r.
  - apply negb_true_iff in Hrest. now rewrite Hrest, F.
Qed.

End ScanEquations.

Section EdgeEquations.

Lemma dropWhile_repeat (n : nat) (s : jsstring) :
  dropWhile isUnderscore (repeat underscore n ++ s) = dropWhile isUnderscore s.
Proof. induction n as [|n IH]; simpl; auto. Qed.

Lemma forallb_repeat_underscore (n : nat) :
  forallb isUnderscore (repeat underscore n) = true.
Proof. induction n as [|n IH]; simpl; auto. Qed.

Lemma stripTrailing_core (core : jsstring) (n : nat) :
  endsWithUnderscore core = false ->
  stripTrailingUnderscores (core ++ repeat underscore n) = core.
Proof.
  induction core as [|c core IH]; intros E.
  - simpl. destruct n; simpl; auto. now rewrite forallb_repeat_underscore.
  - simpl app. cbn [stripTrailingUnderscores].
    destruct (forallb isUnderscore (c :: core ++ repeat underscore n)) eqn:A.
    + exfalso. simpl in A. apply andb_prop in A as [Ac A].
      rewrite forallb_app in A. apply andb_prop in A as [A _].
      assert (L : forall l, forallb isUnderscore l = true -> l <> [] ->
                            endsWithUnderscore l = true).
      { intros l Hl Hn. unfold endsWithUnderscore.
        destruct (rev l) as [|d r] eqn:R.
        - apply (f_equal (@rev _)) in R. rewrite rev_involutive in R. now subst.
        - simpl. rewrite forallb_forall in Hl. apply Hl. apply in_rev.
          rewrite R. now left. }
      rewrite (L (c :: core)) in E; [discriminate| |discriminate].
      simpl. now rewrite Ac, A.
    + f_equal. apply IH. destruct core as [|d core']; [reflexivity|].
      rewrite <- E. symmetry. unfold endsWithUnderscore. simpl.
      destruct (rev core' ++ [d]) eqn:R; [now destruct (rev core')|reflexivity].
Qed.

(** Underscores around a core that neither starts nor ends with one are
    removed, and nothing else. *)
Lemma stripEdgeUnderscores_core (a b : nat) (core : jsstring) :
  startsWithUnderscore core = false ->
  endsWithUnderscore core = false ->
  stripEdgeUnderscores (repeat underscore a ++ core ++ repeat underscore b) = core.
Proof.
  intros S E. unfold stripEdgeUnderscores. rewrite dropWhile_repeat.
  destruct core as [|c core].
  - simpl app. clear. induction b as [|b IH]; simpl; auto.
  - simpl app. simpl dropWhile. simpl in S. rewrite S.
    now apply (stripTrailing_core (c :: core)).
Qed.

End EdgeEquations.

(** ** The placeholder replacement *)

Section Placeholders.

Lemma matchBraced_shorter (s cap rest : jsstring) :
  matchBraced s = Some (cap, rest) -> List.length rest < List.length s.
Proof.
  revert cap rest. induction s as [|c r IH]; simpl; intros cap rest; [discriminate|].
  destruct (N.eqb c closeBrace).
  - intros H. inversion H; subst. lia.
  - destruct (isLineTerminator c); [discriminate|].
    destruct (matchBraced r) as [[cap' rest']|]; [|discriminate].
    intros H. inversion H; subst. specialize (IH _ _ eq_refl). lia.
Qed.

(** More fuel than the length of the string changes nothing. *)
Lemma replaceBracedFuel_enough (f : jsstring -> jsstring) (n m : nat) (s : jsstring) :
  List.length s <= n -> List.length s <= m ->
  replaceBracedFuel n f s = replaceBracedFuel m f s.
Proof.
  revert m s. induction n as [|n IH]; intros m s Hn Hm.
  - destruct s; [|simpl in Hn; lia]. now destruct m.
  - destruct m as [|m].
    + destruct s; [reflexivity|simpl in Hm; lia].
    + destruct s as [|c r]; [reflexivity|]. simpl in Hn, Hm. simpl.
      destruct (N.eqb c openBrace).
      * destruct (matchBraced r) as [[cap rest]|] eqn:E.
        -- apply matchBraced_shorter in E. f_equal. apply IH; lia.
        -- f_equal. apply IH; lia.
      * f_equal. apply IH; lia.
Qed.

Lemma replaceBraced_fuel (f : jsstring -> jsstring) (n : nat) (s : jsstring) :
  List.length s <= n -> replaceBracedFuel n f s = replaceBraced f s.
Proof. intros H. unfold replaceBraced. now apply replaceBracedFuel_enough. Qed.

(** The scan equations of the replacement, free of fuel. *)
Lemma replaceBraced_cons (f : jsstring -> jsstring) (c : codeUnit) (r : jsstring) :
  replaceBraced f (c :: r)
  = if N.eqb c openBrace then
      match matchBraced r with
      | Some (cap, rest) => f cap ++ replaceBraced f rest
      | None => c :: replaceBraced f r
      end
    else c :: replaceBraced f r.
Proof.
  unfold replaceBraced at 1. simpl.
  destruct (N.eqb c openBrace).
  - destruct (matchBraced r) as [[cap rest]|] eqn:E.
    + apply matchBraced_shorter in E. rewrite replaceBraced_fuel by lia. reflexivity.
    + now rewrite replaceBraced_fuel.
  - now rewrite replaceBraced_fuel.
Qed.

Lemma replaceBraced_literal (f : jsstring -> jsstring) (text rest : jsstring) :
  forallb (fun c => negb (N.eqb c openBrace)) text = true ->
  replaceBraced f (text ++ rest) = text ++ replaceBraced f rest.
Proof.
  induction text as [|c text IH]; simpl; auto. intros H.
  apply andb_prop in H as [Hc Ht]. apply negb_true_iff in Hc.
  rewrite replaceBraced_cons, Hc, IH by assumption. reflexivity.
Qed.

Lemma matchBraced_name (name rest : jsstring) :
  forallb (fun c => negb (N.eqb c closeBrace) && negb (isLineTerminator c)) name = true ->
  matchBraced (name ++ closeBrace :: rest) = Some (name, rest).
Proof.
  induction name as [|c name IH]; simpl; auto. intros H.
  apply andb_prop in H as [Hc Hn]. apply andb_prop in Hc as [H1 H2].
  apply negb_true_iff in H1, H2. now rewrite H1, H2, IH.
Qed.

(** On a segment made of literal text and well-formed placeholders the
    replacement keeps the literal text and nothing else. *)
Lemma stripPlaceholders_pieces (ps : list Piece) :
  forallb plainPiece ps = true ->
  stripPlaceholders (renderPieces ps) = literalText ps.
Proof.
  unfold stripPlaceholders, renderPieces, literalText.
  induction ps as [|[text|name] ps IH]; simpl; auto; intros H;
    apply andb_prop in H as [Hp Hps].
  - rewrite replaceBraced_literal by assumption. now rewrite IH.
  - rewrite replaceBraced_cons. change (N.eqb openBrace openBrace) with true. cbv iota.
    rewrite <- app_assoc. simpl app.
    rewrite matchBraced_name by assumption. simpl. now apply IH.
Qed.

Example stripPlaceholders_mixed :
  stripPlaceholders (js "v{major}.{minor}-beta") = js "v.-beta".
Proof. reflexivity. Qed.

Example stripPlaceholders_unclosed :
  stripPlaceholders (js "a{b") = js "a{b".
Proof. reflexivity. Qed.

End Placeholders.

(** ** The sanitizer *)

Section Sanitizer.

Lemma isUnderscore_eq (c : codeUnit) : isUnderscore c = true -> c = underscore.
Proof. unfold isUnderscore. apply N.eqb_eq. Qed.

(** *** First replacement: only word characters are left *)

Lemma flushRun_invalid_word (run : jsstring) :
  forallb isWordChar (flushRun 1 (js "_") run) = true.
Proof. destruct run; reflexivity. Qed.

Lemma replaceRunsFrom_invalid_word (s run : jsstring) :
  forallb isWordChar
    (replaceRunsFrom (fun c => negb (isWordChar c)) 1 (js "_") run s) = true.
Proof.
  revert run. induction s as [|c r IH]; intros run; simpl.
  - apply flushRun_invalid_word.
  - destruct (isWordChar c) eqn:Hc; simpl.
    + rewrite forallb_app, flushRun_invalid_word. simpl. now rewrite Hc, IH.
    + apply IH.
Qed.

(** *** Second replacement *)

Lemma dropWhile_word (p : codeUnit -> bool) (s : jsstring) :
  forallb isWordChar s = true -> forallb isWordChar (dropWhile p s) = true.
Proof.
  induction s as [|c r IH]; simpl; auto.
  intros H. apply andb_prop in H as [Hc Hr].
  destruct (p c); auto. simpl. now rewrite Hc, Hr.
Qed.

Lemma stripTrailing_word (s : jsstring) :
  forallb isWordChar s = true -> forallb isWordChar (stripTrailingUnderscores s) = true.
Proof.
  induction s as [|c r IH]; auto.
  intros H. simpl in H. apply andb_prop in H as [Hc Hr].
  cbn [stripTrailingUnderscores]. destruct (forallb isUnderscore (c :: r)); auto.
  simpl. now rewrite Hc, IH.
Qed.

Lemma dropWhile_start (s : jsstring) :
  startsWithUnderscore (dropWhile isUnderscore s) = false.
Proof.
  induction s as [|c r IH]; auto. simpl.
  destruct (isUnderscore c) eqn:Hc; simpl; auto.
Qed.

Lemma stripTrailing_start (s : jsstring) :
  startsWithUnderscore s = false ->
  startsWithUnderscore (stripTrailingUnderscores s) = false.
Proof.
  destruct s as [|c r]; auto. intros H. cbn [stripTrailingUnderscores].
  destruct (forallb isUnderscore (c :: r)); auto.
Qed.

Lemma endsWith_cons (c : codeUnit) (s : jsstring) :
  s <> [] -> endsWithUnderscore (c :: s) = endsWithUnderscore s.
Proof.
  unfold endsWithUnderscore. intros Hs. simpl.
  destruct (rev s) eqn:E; auto.
  apply (f_equal (@rev _)) in E. rewrite rev_involutive in E. now subst.
Qed.

Lemma stripTrailing_end (s : jsstring) :
  endsWithUnderscore (stripTrailingUnderscores s) = false.
Proof.
  induction s as [|c r IH]; auto.
  cbn [stripTrailingUnderscores].
  destruct (forallb isUnderscore (c :: r)) eqn:Hall; auto.
  destruct (stripTrailingUnderscores r) eqn:E.
  - (* everything after [c] was underscores, so [c] is not one *)
    unfold endsWithUnderscore. simpl.
    destruct r as [|d r'].
    + simpl in Hall. now rewrite andb_true_r in Hall.
    + cbn [stripTrailingUnderscores] in E.
      destruct (forallb isUnderscore (d :: r')) eqn:Hr; [|discriminate].
      simpl in Hall, Hr. rewrite Hr, andb_true_r in Hall. exact Hall.
  - rewrite endsWith_cons by discriminate. exact IH.
Qed.

(** *** Third replacement *)

Lemma flushRun_underscores (run : jsstring) :
  forallb isUnderscore run = true ->
  flushRun 2 (js "_") run = if nonEmpty run then [underscore] else [].
Proof.
  destruct run as [|a [|b run']]; auto.
  simpl. rewrite andb_true_r. intros Ha. now rewrite (isUnderscore_eq _ Ha).
Qed.

Lemma collapse_word (s run : jsstring) :
  forallb isUnderscore run = true ->
  forallb isWordChar s = true ->
  forallb isWordChar (replaceRunsFrom isUnderscore 2 (js "_") run s) = true.
Proof.
  revert run. induction s as [|c r IH]; intros run Hrun Hs; simpl.
  - rewrite flushRun_underscores by assumption. now destruct run.
  - simpl in Hs. apply andb_prop in Hs as [Hc Hr].
    destruct (isUnderscore c) eqn:Hu.
    + apply IH; auto. simpl. now rewrite Hu.
    + rewrite forallb_app, flushRun_underscores by assumption.
      simpl. rewrite Hc, IH by auto. now destruct run.
Qed.

Lemma hasDouble_cons (c : codeUnit) (s : jsstring) :
  isUnderscore c = false -> hasDoubleUnderscore (c :: s) = hasDoubleUnderscore s.
Proof. intros Hc. destruct s; simpl; auto. now rewrite Hc. Qed.

Lemma hasDouble_under_cons (c : codeUnit) (s : jsstring) :
  isUnderscore c = false ->
  hasDoubleUnderscore (underscore :: c :: s) = hasDoubleUnderscore s.
Proof.
  intros Hc. change (hasDoubleUnderscore (underscore :: c :: s))
    with ((isUnderscore underscore && isUnderscore c) || hasDoubleUnderscore (c :: s)).
  rewrite Hc, andb_false_r. simpl orb. now apply hasDouble_cons.
Qed.

Lemma collapse_no_double (s run : jsstring) :
  forallb isUnderscore run = true ->
  hasDoubleUnderscore (replaceRunsFrom isUnderscore 2 (js "_") run s) = false.
Proof.
  revert run. induction s as [|c r IH]; intros run Hrun; simpl.
  - rewrite flushRun_underscores by assumption. now destruct run.
  - destruct (isUnderscore c) eqn:Hu.
    + apply IH. simpl. now rewrite Hu.
    + rewrite flushRun_underscores by assumption.
      destruct run; simpl app.
      * rewrite hasDouble_cons by assumption. now apply IH.
      * rewrite hasDouble_under_cons by assumption. now apply IH.
Qed.

Lemma collapse_start (s run : jsstring) :
  forallb isUnderscore run = true ->
  startsWithUnderscore (replaceRunsFrom isUnderscore 2 (js "_") run s)
  = nonEmpty run || startsWithUnderscore s.
Proof.
  revert run. induction s as [|c r IH]; intros run Hrun; simpl.
  - rewrite flushRun_underscores by assumption. destruct run; reflexivity.
  - destruct (isUnderscore c) eqn:Hu.
    + rewrite IH by (simpl; now rewrite Hu). simpl. now rewrite orb_true_r.
    + rewrite flushRun_underscores by assumption.
      destruct run; simpl; auto.
Qed.

Lemma collapse_nil (s run : jsstring) :
  replaceRunsFrom isUnderscore 2 (js "_") run s = [] -> run = [] /\ s = [].
Proof.
  revert run. induction s as [|c r IH]; intros run; simpl.
  - destruct run as [|a [|b run']]; simpl; try discriminate; auto.
  - destruct (isUnderscore c).
    + intros H. apply IH in H as [H _]. discriminate.
    + intros H. apply app_eq_nil in H as [_ H]. discriminate.
Qed.

Lemma endsWith_app_cons (pre : jsstring) (c : codeUnit) (s : jsstring) :
  endsWithUnderscore (pre ++ c :: s)
  = match s with [] => isUnderscore c | _ :: _ => endsWithUnderscore s end.
Proof.
  induction pre as [|a pre IH].
  - destruct s; auto. simpl app. apply endsWith_cons. discriminate.
  - simpl app. rewrite endsWith_cons; auto. now destruct pre.
Qed.

Lemma collapse_end (s run : jsstring) :
  forallb isUnderscore run = true ->
  endsWithUnderscore (replaceRunsFrom isUnderscore 2 (js "_") run s)
  = match s with [] => nonEmpty run | _ :: _ => endsWithUnderscore s end.
Proof.
  revert run. induction s as [|c r IH]; intros run Hrun; simpl replaceRunsFrom.
  - rewrite flushRun_underscores by assumption. destruct run; reflexivity.
  - destruct (isUnderscore c) eqn:Hu.
    + rewrite IH by (simpl; now rewrite Hu).
      destruct r; simpl nonEmpty.
      * unfold endsWithUnderscore. simpl. now rewrite Hu.
      * symmetry. apply endsWith_cons. discriminate.
    + rewrite endsWith_app_cons.
      destruct (replaceRunsFrom isUnderscore 2 (js "_") [] r) eqn:E.
      * apply collapse_nil in E as [_ ->].
        unfold endsWithUnderscore. simpl. reflexivity.
      * rewrite <- E, IH by reflexivity.
        destruct r.
        -- simpl in E. discriminate.
        -- symmetry. apply endsWith_cons. discriminate.
Qed.

Lemma toSafeName_shape (str : jsstring) :
  forallb isWordChar (toSafeName str) = true /\
  startsWithUnderscore (toSafeName str) = false /\
  endsWithUnderscore (toSafeName str) = false /\
  hasDoubleUnderscore (toSafeName str) = false.
Proof.
  unfold toSafeName, replaceRuns.
  set (s1 := replaceRunsFrom (fun c => negb (isWordChar c)) 1 (js "_") [] str).
  set (s2 := stripEdgeUnderscores s1).
  assert (W2 : forallb isWordChar s2 = true).
  { apply stripTrailing_word, dropWhile_word, replaceRunsFrom_invalid_word. }
  assert (S2 : startsWithUnderscore s2 = false).
  { apply stripTrailing_start, dropWhile_start. }
  assert (E2 : endsWithUnderscore s2 = false) by apply stripTrailing_end.
  repeat split.
  - now apply collapse_word.
  - rewrite collapse_start by reflexivity. exact S2.
  - rewrite collapse_end by reflexivity. now destruct s2.
  - now apply collapse_no_double.
Qed.

(** Claim C5.  [toSafeName] is a total function on strings of code units
    (the empty string, non-ASCII code units and strings without a single
    word character included); its result holds only characters of
    [[A-Za-z0-9_]], neither starts nor ends with an underscore, and has no
    two underscores in a row. *)
Theorem toSafeName_safe (str : jsstring) :
  exists out : jsstring,
    toSafeName str = out /\
    forallb isWordChar out = true /\
    startsWithUnderscore out = false /\
    endsWithUnderscore out = false /\
    hasDoubleUnderscore out = false.
Proof.
  exists (toSafeName str). split; [reflexivity|]. apply toSafeName_shape.
Qed.

Example toSafeName_spaces : toSafeName (js "get user-by.id") = js "get_user_by_id".
Proof. reflexivity. Qed.

Example toSafeName_edges : toSafeName (js "__a__b__") = js "a_b".
Proof. reflexivity. Qed.

Example toSafeName_mixed_run : toSafeName (js "a_!_b") = js "a_b".
Proof. reflexivity. Qed.

Example toSafeName_nothing_left : toSafeName (js "!!!") = js "".
Proof. reflexivity. Qed.

Example toSafeName_empty : toSafeName [] = [].
Proof. reflexivity. Qed.

Example toSafeName_non_ascii : toSafeName [233%N; 116%N; 233%N; 55357%N; 56832%N] = js "t".
Proof. reflexivity. Qed.

End Sanitizer.

(** ** Function names *)

Section FunctionNames.


Lemma word_identifierPart (s : jsstring) :
  forallb isWordChar s = true -> forallb isIdentifierPart s = true.
Proof.
  induction s as [|c r IH]; auto. simpl. intros H.
  apply andb_prop in H as [Hc Hr]. rewrite IH by assumption.
  rewrite andb_true_r. unfold isWordChar in Hc. unfold isIdentifierPart, isIdentifierStart.
  destruct (isLowerAZ c), (isUpperAZ c), (isDigit c), (isUnderscore c);
    simpl in *; rewrite ?orb_true_r; auto; discriminate.
Qed.




Lemma opFunctionName_anonymous (op : Operation) (pathKey method : jsstring) :
  truthyOpt (operationId op) = false ->
  opFunctionName op pathKey method = toSafeName (derivedBase pathKey method).
Proof.
  unfold opFunctionName, truthyOpt, derivedBase.
  destruct (operationId op) as [id|]; auto. now intros ->.
Qed.










Example opFunctionName_root :
  opFunctionName anonymousOp (js "/") (js "get") = js "get_root".
Proof. reflexivity. Qed.

Example opFunctionName_only_placeholders :
  opFunctionName anonymousOp (js "/{id}/{other}") (js "delete") = js "delete_root".
Proof. reflexivity. Qed.

End FunctionNames.

(** ** Parameter names *)

Section ParameterNames.

Lemma filter_filter (A : Type) (p q : A -> bool) (l : list A) :
  filter p (filter q l) = filter (fun x => q x && p x) l.
Proof.
  induction l as [|a l IH]; auto. simpl.
  destruct (q a); simpl; [destruct (p a)|]; now rewrite IH.
Qed.

(** [new Set(l)] on top of the elements [acc] already there. *)
Lemma fold_add_firstOccurrences (l : list jsstring) (acc : JsSet.t) :
  fold_left JsSet.add l acc
  = acc ++ filter (fun y => negb (JsSet.has y acc)) (firstOccurrences l).
Proof.
  revert acc. induction l as [|x r IH]; intros acc; simpl.
  - now rewrite app_nil_r.
  - rewrite IH. unfold JsSet.add. destruct (JsSet.has x acc) eqn:Hx; simpl.
    + f_equal. rewrite filter_filter. apply filter_ext. intros y.
      destruct (jsstring_eqb y x) eqn:E; simpl; auto.
      apply jsstring_eqb_eq in E. subst. now rewrite Hx.
    + rewrite <- app_assoc. simpl. do 2 f_equal.
      rewrite filter_filter. apply filter_ext. intros y.
      unfold JsSet.has. rewrite existsb_app. simpl. rewrite orb_false_r.
      rewrite negb_orb. now rewrite andb_comm.
Qed.

Lemma ofList_firstOccurrences (l : list jsstring) :
  JsSet.ofList l = firstOccurrences l.
Proof.
  unfold JsSet.ofList. rewrite fold_add_firstOccurrences. simpl.
  induction (firstOccurrences l); simpl; congruence.
Qed.

Lemma firstOccurrences_In (l : list jsstring) (x : jsstring) :
  In x (firstOccurrences l) <-> In x l.
Proof.
  induction l as [|a r IH]; simpl; [tauto|].
  rewrite filter_In, IH. destruct (jsstring_eq_dec a x) as [->|Hne].
  - tauto.
  - split; [tauto|]. intros [H|H]; [tauto|]. right. split; auto.
    apply negb_true_iff, jsstring_eqb_neq. congruence.
Qed.

Lemma firstOccurrences_NoDup (l : list jsstring) : NoDup (firstOccurrences l).
Proof.
  induction l as [|a r IH]; simpl; constructor.
  - rewrite filter_In. intros [_ H]. now rewrite jsstring_eqb_refl in H.
  - now apply NoDup_filter.
Qed.

Lemma paramNames_In (ps : list (option ParameterObject)) (x : jsstring) :
  In x (paramNames ps) <->
  truthy x = true /\ exists p, In (Some p) ps /\ p_name p = Some x.
Proof.
  induction ps as [|[p|] r IH]; simpl.
  - split; [tauto|]. now intros (_ & p & [] & _).
  - destruct (p_name p) as [n|] eqn:Hn.
    + destruct (truthy n) eqn:Ht; simpl; rewrite IH; split.
      * intros [<-|(T & q & Hq & E)]; [|eauto 6]. split; auto. exists p. auto.
      * intros (T & q & [Hq|Hq] & E); [|eauto 6]. left. congruence.
      * intros (T & q & Hq & E). eauto 6.
      * intros (T & q & [Hq|Hq] & E); [|eauto 6]. congruence.
    + rewrite IH. split.
      * intros (T & q & Hq & E). eauto 6.
      * intros (T & q & [Hq|Hq] & E); [|eauto 6]. congruence.
  - rewrite IH. split.
    + intros (T & q & Hq & E). eauto 6.
    + intros (T & q & [Hq|Hq] & E); [discriminate|eauto 6].
Qed.

Lemma filterIn_total (loc : jsstring) (ps : list ParameterObject) :
  filterIn loc (map Some ps) = Ok (map Some (filter (isIn loc) ps)).
Proof.
  induction ps as [|p r IH]; simpl; auto. rewrite IH. simpl.
  now destruct (isIn loc p).
Qed.

End ParameterNames.

(** ** Parameter buckets *)

Section ParameterBuckets.

Lemma filterIn_located (loc : jsstring) (ps kept : list (option ParameterObject)) :
  filterIn loc ps = Ok kept -> kept = filter (located loc) ps.
Proof.
  revert kept. induction ps as [|[q|] r IH]; simpl; intros kept H.
  - now inversion H.
  - destruct (filterIn loc r) as [kept'|] eqn:E; simpl in H; [|discriminate].
    inversion H; subst; clear H. rewrite (IH _ eq_refl).
    now destruct (isIn loc q).
  - discriminate.
Qed.

Lemma paramList_namesIn (loc : jsstring) (ps kept : list (option ParameterObject)) :
  filterIn loc ps = Ok kept -> paramList kept = namesIn loc ps.
Proof.
  intros H. apply filterIn_located in H. subst kept.
  unfold paramList, namesIn. apply ofList_firstOccurrences.
Qed.

Lemma paramBuckets_namesIn (op : IndexedOperation)
  (inPath inQuery inHeader : list jsstring) :
  paramBuckets op = Ok (inPath, inQuery, inHeader) ->
  inPath = namesIn (js "path") (parametersOrEmpty (io_op op)) /\
  inQuery = namesIn (js "query") (parametersOrEmpty (io_op op)) /\
  inHeader = namesIn (js "header") (parametersOrEmpty (io_op op)).
Proof.
  unfold paramBuckets.
  destruct (filterIn (js "path") _) as [k1|] eqn:E1; simpl; [|discriminate].
  destruct (filterIn (js "query") _) as [k2|] eqn:E2; simpl; [|discriminate].
  destruct (filterIn (js "header") _) as [k3|] eqn:E3; simpl; [|discriminate].
  intros H. inversion H; subst; clear H.
  rewrite (paramList_namesIn _ _ _ E1), (paramList_namesIn _ _ _ E2), (paramList_namesIn _ _ _ E3).
  auto.
Qed.

Lemma namesIn_In (loc : jsstring) (ps : list (option ParameterObject)) (x : jsstring) :
  In x (namesIn loc ps) <->
  truthy x = true /\
  exists p, In (Some p) ps /\ isIn loc p = true /\ p_name p = Some x.
Proof.
  unfold namesIn. rewrite firstOccurrences_In, paramNames_In.
  split; intros (T & p & H); split; auto; exists p.
  - destruct H as [H E]. apply filter_In in H as [H L]. auto.
  - destruct H as (H & L & E). split; auto. apply filter_In. auto.
Qed.

(** Claim C8.  [paramList] drops the entries without a name and keeps
    each remaining name once, where it is first seen.  The emitter applies
    it to the path, query and header parameters separately, so a bucket
    holds exactly the names declared in its location: two parameters
    named [page], one in [query] and one in [header], give one name in
    each of the two buckets. *)
Theorem paramList_per_location (ps : list (option ParameterObject))
  (op : IndexedOperation) (inPath inQuery inHeader : list jsstring) :
  paramBuckets op = Ok (inPath, inQuery, inHeader) ->
  (paramList ps = firstOccurrences (paramNames ps) /\
   NoDup (paramList ps) /\
   forall x, In x (paramList ps) <->
             truthy x = true /\ exists p, In (Some p) ps /\ p_name p = Some x) /\
  (inPath = namesIn (js "path") (parametersOrEmpty (io_op op)) /\
   inQuery = namesIn (js "query") (parametersOrEmpty (io_op op)) /\
   inHeader = namesIn (js "header") (parametersOrEmpty (io_op op))) /\
  (forall x, In x inQuery <->
     truthy x = true /\
     exists p, In (Some p) (parametersOrEmpty (io_op op)) /\
               p_in p = Some (js "query") /\ p_name p = Some x) /\
  (forall x, In x inHeader <->
     truthy x = true /\
     exists p, In (Some p) (parametersOrEmpty (io_op op)) /\
               p_in p = Some (js "header") /\ p_name p = Some x) /\
  paramBuckets pageExample = Ok ([], [js "page"], [js "page"]).
Proof.
  intros H. split; [|split; [|split; [|split]]].
  - unfold paramList. rewrite ofList_firstOccurrences. split; [reflexivity|].
    split; [apply firstOccurrences_NoDup|].
    intros x. now rewrite firstOccurrences_In, paramNames_In.
  - now apply paramBuckets_namesIn.
  - apply paramBuckets_namesIn in H as (_ & -> & _). intros x.
    rewrite namesIn_In. split; intros (T & p & Hp & A & B); split; auto; exists p;
      repeat split; auto.
    + unfold isIn in A. destruct (p_in p); [|discriminate].
      apply jsstring_eqb_eq in A. now subst.
    + unfold isIn. rewrite A. apply jsstring_eqb_refl.
  - apply paramBuckets_namesIn in H as (_ & _ & ->). intros x.
    rewrite namesIn_In. split; intros (T & p & Hp & A & B); split; auto; exists p;
      repeat split; auto.
    + unfold isIn in A. destruct (p_in p); [|discriminate].
      apply jsstring_eqb_eq in A. now subst.
    + unfold isIn. rewrite A. apply jsstring_eqb_refl.
  - reflexivity.
Qed.

Lemma paramList_per_location_witness :
  paramBuckets pageExample = Ok ([], [js "page"], [js "page"]) /\
  (forall x, In x [js "page"] <->
     truthy x = true /\
     exists p, In (Some p) (parametersOrEmpty (io_op pageExample)) /\
               p_in p = Some (js "header") /\ p_name p = Some x).
Proof.
  split; [reflexivity|].
  apply (paramList_per_location [] pageExample [] [js "page"] [js "page"]).
  reflexivity.
Defined.

End ParameterBuckets.

(** ** Shape of the argument list *)

Section ArgumentShape.

Lemma namesIn_nonEmpty (loc : jsstring) (ps : list ParameterObject) :
  nonEmpty (namesIn loc (map Some ps)) = declares loc ps.
Proof.
  unfold namesIn, declares.
  assert (E : forall l, nonEmpty (firstOccurrences l) = nonEmpty l) by (now intros []).
  rewrite E. induction ps as [|p r IH]; auto.
  simpl. destruct (isIn loc p) eqn:Hl; simpl.
  - unfold isNamed, truthyOpt. destruct (p_name p) as [n|]; simpl; auto.
    destruct (truthy n); simpl; auto.
  - now rewrite andb_false_r.
Qed.

Lemma filter_located_typed (loc : jsstring) (ps : list ParameterObject) :
  filter (located loc) (map Some ps) = map Some (filter (isIn loc) ps).
Proof.
  induction ps as [|p r IH]; simpl; auto. destruct (isIn loc p); simpl; now rewrite IH.
Qed.

Lemma paramBuckets_typed (op : IndexedOperation) (ps : list ParameterObject) :
  parametersOrEmpty (io_op op) = map Some ps ->
  paramBuckets op
  = Ok (namesIn (js "path") (map Some ps),
        namesIn (js "query") (map Some ps),
        namesIn (js "header") (map Some ps)).
Proof.
  intros E. unfold paramBuckets. rewrite E, !filterIn_total. simpl.
  unfold paramList, namesIn. now rewrite !ofList_firstOccurrences, !filter_located_typed.
Qed.

Lemma existsb_false (A : Type) (f : A -> bool) (l : list A) :
  (forall x, In x l -> f x = false) -> existsb f l = false.
Proof.
  induction l as [|a l IH]; auto. intros H. simpl.
  rewrite (H a) by (now left). apply IH. intros x Hx. apply H. now right.
Qed.

(** The arguments of every method, whatever the operation declares. *)
Lemma operationArgs_positional (op : IndexedOperation) (ps : list ParameterObject) :
  parametersOrEmpty (io_op op) = map Some ps ->
  operationArgs op = Ok (positionalArgs ps (requestBody (io_op op))).
Proof.
  intros E. unfold operationArgs. rewrite (paramBuckets_typed _ _ E). simpl.
  unfold methodArgs, positionalArgs. now rewrite !namesIn_nonEmpty.
Qed.

Lemma renderOperation_signature (U : CaseTables) (op : IndexedOperation)
  (ps : list ParameterObject) :
  parametersOrEmpty (io_op op) = map Some ps ->
  exists lines,
    renderOperation U op = Ok lines /\
    In (signatureLine (io_fnName op) (positionalArgs ps (requestBody (io_op op)))) lines.
Proof.
  intros E. unfold renderOperation. rewrite (paramBuckets_typed _ _ E). simpl bindR.
  unfold methodArgs, positionalArgs. rewrite !namesIn_nonEmpty.
  eexists. split; [reflexivity|]. simpl. tauto.
Qed.

(** Claim C9.  The argument list of a generated method is [pathParams],
    [query], [headers], [body] in this order, each present only when the
    operation declares a named parameter of that location (a request body
    for [body]).  So an operation whose [parameters] hold no [null], that
    declares no request body and no named parameter in [path] or
    [header], gets the single argument [query] when some named parameter
    is located in [query], and no argument at all otherwise; the line that
    opens the method is rendered with exactly these arguments. *)
Theorem operationArgs_shape (U : CaseTables) (op : IndexedOperation)
  (ps : list ParameterObject) :
  parametersOrEmpty (io_op op) = map Some ps ->
  requestBody (io_op op) = false ->
  (forall p, In p ps -> isNamed p = true ->
             isIn (js "path") p = false /\ isIn (js "header") p = false) ->
  let args := if declares (js "query") ps then [js "query"] else [] in
  positionalArgs ps (requestBody (io_op op)) = args /\
  operationArgs op = Ok args /\
  exists lines, renderOperation U op = Ok lines /\
                In (signatureLine (io_fnName op) args) lines.
Proof.
  intros E B Hloc args.
  assert (A : positionalArgs ps (requestBody (io_op op)) = args).
  { unfold positionalArgs. rewrite B.
    assert (declares (js "path") ps = false) as ->.
    { apply existsb_false. intros p Hp.
      destruct (isNamed p) eqn:Hn; auto. now destruct (Hloc p Hp Hn) as [-> _]. }
    assert (declares (js "header") ps = false) as ->.
    { apply existsb_false. intros p Hp.
      destruct (isNamed p) eqn:Hn; auto. now destruct (Hloc p Hp Hn) as [_ ->]. }
    subst args. now destruct (declares (js "query") ps). }
  split; [exact A|]. split.
  - rewrite <- A. now apply operationArgs_positional.
  - rewrite <- A. now apply renderOperation_signature.
Qed.

Lemma operationArgs_shape_witness :
  operationArgs queryOnlyExample = Ok [js "query"] /\
  exists lines, renderOperation asciiTables queryOnlyExample = Ok lines /\
                In (js "  async listItems(query) {") lines.
Proof.
  apply (operationArgs_shape asciiTables queryOnlyExample
           [ {| p_name := Some (js "page"); p_in := Some (js "query") |};
             {| p_name := Some (js "size"); p_in := Some (js "query") |} ]).
  - reflexivity.
  - reflexivity.
  - intros p [<-|[<-|[]]] _; split; reflexivity.
Defined.

Example operationArgs_none :
  operationArgs (mkEntry (js "/ping") (js "get") anonymousOp) = Ok [] /\
  exists lines,
    renderOperation asciiTables (mkEntry (js "/ping") (js "get") anonymousOp) = Ok lines /\
    In (js "  async get_ping() {") lines.
Proof. split; [reflexivity|]. eexists. split; [reflexivity|]. simpl. tauto. Qed.

Example operationArgs_all :
  operationArgs
    (mkEntry (js "/pets/{id}") (js "put")
       {| operationId := Some (js "updatePet"); tags := TagsAbsent; summary := None;
          parameters := Some [ Some {| p_name := Some (js "trace"); p_in := Some (js "header") |};
                               Some {| p_name := Some (js "id"); p_in := Some (js "path") |};
                               Some {| p_name := Some (js "dry"); p_in := Some (js "query") |} ];
          requestBody := true |})
  = Ok [js "pathParams"; js "query"; js "headers"; js "body"].
Proof. reflexivity. Qed.

End ArgumentShape.

(** ** Maps and the indexer *)

Section MapLemmas.
Variable V : Type.
Implicit Types (m : JsMap.t V) (k : jsstring).

Lemma get_set k k' (v : V) m :
  JsMap.get k' (JsMap.set k v m) = if jsstring_eqb k' k then Some v else JsMap.get k' m.
Proof.
  induction m as [|[k0 v0] m IH]; simpl.
  - reflexivity.
  - destruct (jsstring_eqb k k0) eqn:E; simpl.
    + apply jsstring_eqb_eq in E. subst k0. now destruct (jsstring_eqb k' k).
    + rewrite IH. destruct (jsstring_eqb k' k0) eqn:E0; auto.
      apply jsstring_eqb_eq in E0. subst k0.
      destruct (jsstring_eqb k' k) eqn:E1; auto.
      apply jsstring_eqb_eq in E1. subst. now rewrite jsstring_eqb_refl in E.
Qed.

Lemma get_modify k k' (f : V -> V) m :
  JsMap.get k' (JsMap.modify k f m)
  = if jsstring_eqb k' k then option_map f (JsMap.get k m) else JsMap.get k' m.
Proof.
  induction m as [|[k0 v0] m IH]; simpl.
  - now destruct (jsstring_eqb k' k).
  - destruct (jsstring_eqb k k0) eqn:E; simpl.
    + apply jsstring_eqb_eq in E. subst k0. now destruct (jsstring_eqb k' k).
    + rewrite IH. destruct (jsstring_eqb k' k0) eqn:E0; auto.
      apply jsstring_eqb_eq in E0. subst k0.
      destruct (jsstring_eqb k' k) eqn:E1; auto.
      apply jsstring_eqb_eq in E1. subst. now rewrite jsstring_eqb_refl in E.
Qed.

Lemma has_keys k m : JsMap.has k m = true <-> In k (JsMap.keys m).
Proof.
  unfold JsMap.has. induction m as [|[k0 v0] m IH]; simpl.
  - split; [discriminate|tauto].
  - destruct (jsstring_eqb k k0) eqn:E.
    + apply jsstring_eqb_eq in E. subst. tauto.
    + apply jsstring_eqb_neq in E. rewrite IH. split; [tauto|].
      intros [H|H]; [congruence|auto].
Qed.

Lemma keys_set k (v : V) m :
  JsMap.keys (JsMap.set k v m)
  = if JsMap.has k m then JsMap.keys m else JsMap.keys m ++ [k].
Proof.
  unfold JsMap.has. induction m as [|[k0 v0] m IH]; simpl; auto.
  destruct (jsstring_eqb k k0) eqn:E; simpl; auto.
  rewrite IH. now destruct (JsMap.get k m).
Qed.

Lemma keys_modify k (f : V -> V) m :
  JsMap.keys (JsMap.modify k f m) = JsMap.keys m.
Proof.
  induction m as [|[k0 v0] m IH]; simpl; auto.
  destruct (jsstring_eqb k k0); simpl; congruence.
Qed.

Lemma get_In k (v : V) m : JsMap.get k m = Some v -> In (k, v) m.
Proof.
  induction m as [|[k0 v0] m IH]; simpl; [discriminate|].
  destruct (jsstring_eqb k k0) eqn:E; auto.
  apply jsstring_eqb_eq in E. intros H. inversion H. subst. now left.
Qed.

Lemma distinctKeys_get k (v : V) m :
  distinctKeys m = true -> In (k, v) m -> JsMap.get k m = Some v.
Proof.
  induction m as [|[k0 v0] m IH]; simpl; [tauto|].
  intros D [H|H].
  - inversion H; subst. now rewrite jsstring_eqb_refl.
  - apply andb_prop in D as [D1 D2]. rewrite (IH D2 H).
    destruct (jsstring_eqb k k0) eqn:E; auto.
    apply jsstring_eqb_eq in E. subst k0. exfalso.
    apply negb_true_iff in D1. rewrite <- not_true_iff_false in D1. apply D1.
    apply existsb_exists. exists (k, v). split; auto. apply jsstring_eqb_refl.
Qed.

Lemma distinctKeys_head_absent k (v : V) m :
  distinctKeys ((k, v) :: m) = true -> JsMap.get k m = None.
Proof.
  simpl. intros D. apply andb_prop in D as [D1 D2].
  destruct (JsMap.get k m) as [v'|] eqn:G; auto.
  apply get_In in G. exfalso.
  apply negb_true_iff in D1. rewrite <- not_true_iff_false in D1. apply D1.
  apply existsb_exists. exists (k, v'). split; auto. apply jsstring_eqb_refl.
Qed.

End MapLemmas.

Section Indexer.

Lemma bucket_addUnderTag (e : IndexedOperation) (m : TagGroups) (t t' : jsstring) :
  bucket t' (addUnderTag e m t)
  = if jsstring_eqb t' t then bucket t m ++ [e] else bucket t' m.
Proof.
  unfold bucket, addUnderTag, JsMap.has. rewrite get_modify.
  destruct (jsstring_eqb t' t) eqn:E.
  - destruct (JsMap.get t m) eqn:G; simpl.
    + now rewrite G.
    + now rewrite get_set, jsstring_eqb_refl.
  - destruct (JsMap.get t m) eqn:G; auto. now rewrite get_set, E.
Qed.

Lemma keys_addUnderTag (e : IndexedOperation) (m : TagGroups) (t : jsstring) :
  JsMap.keys (addUnderTag e m t)
  = if JsMap.has t m then JsMap.keys m else JsMap.keys m ++ [t].
Proof.
  unfold addUnderTag. rewrite keys_modify.
  destruct (JsMap.has t m) eqn:H; auto. now rewrite keys_set, H.
Qed.

Lemma bucket_tags (e : IndexedOperation) (tags : list jsstring) (m : TagGroups)
  (t : jsstring) :
  bucket t (fold_left (addUnderTag e) tags m)
  = bucket t m ++ repeat e (count_occ jsstring_eq_dec tags t).
Proof.
  revert m. induction tags as [|t0 tags IH]; intros m; simpl.
  - now rewrite app_nil_r.
  - rewrite IH, bucket_addUnderTag.
    destruct (jsstring_eq_dec t0 t) as [->|Hne].
    + rewrite jsstring_eqb_refl, <- app_assoc. reflexivity.
    + destruct (jsstring_eqb t t0) eqn:E; auto.
      apply jsstring_eqb_eq in E. congruence.
Qed.

Lemma bucket_addOperation (pk : jsstring) (m : TagGroups)
  (member : jsstring * Operation) (t : jsstring) :
  bucket t (addOperation pk m member) = bucket t m ++ recordsFrom t pk member.
Proof.
  destruct member as [me op]. unfold addOperation, recordsFrom. simpl.
  destruct (isMethod me); simpl.
  - apply bucket_tags.
  - now rewrite app_nil_r.
Qed.

Lemma bucket_addPathItem (m : TagGroups) (entry : jsstring * PathItem) (t : jsstring) :
  bucket t (addPathItem m entry)
  = bucket t m ++ flat_map (recordsFrom t (fst entry)) (snd entry).
Proof.
  destruct entry as [pk item]. unfold addPathItem. simpl.
  revert m. induction item as [|member item IH]; intros m; simpl.
  - now rewrite app_nil_r.
  - now rewrite IH, bucket_addOperation, app_assoc.
Qed.

(** The indexer fills every bucket in traversal order. *)
Lemma bucket_groupOperationsByTag (openapi : OpenApiDocument) (t : jsstring) :
  bucket t (groupOperationsByTag openapi) = expectedBucket t openapi.
Proof.
  unfold groupOperationsByTag, expectedBucket.
  change (flat_map _ (pathsOrEmpty openapi))
    with (bucket t [] ++ flat_map (fun entry => flat_map (recordsFrom t (fst entry)) (snd entry)) (pathsOrEmpty openapi)).
  generalize (@nil (jsstring * list IndexedOperation)).
  induction (pathsOrEmpty openapi) as [|entry ps IH]; intros m; simpl.
  - now rewrite app_nil_r.
  - now rewrite IH, bucket_addPathItem, app_assoc.
Qed.

End Indexer.

(** ** Grouping completeness *)

Section Grouping.

Lemma bucket_get (t : jsstring) (m : TagGroups) (e : IndexedOperation) :
  In e (bucket t m) -> exists ops, JsMap.get t m = Some ops /\ In e ops.
Proof.
  unfold bucket. destruct (JsMap.get t m) as [ops|]; [eauto|intros []].
Qed.

Lemma recordsFrom_In (t pk : jsstring) (member : jsstring * Operation)
  (e : IndexedOperation) :
  In e (recordsFrom t pk member) <->
  isMethod (fst member) = true /\ In t (pickTags (snd member)) /\
  e = mkEntry pk (fst member) (snd member).
Proof.
  unfold recordsFrom. destruct (isMethod (fst member)); simpl.
  - split.
    + intros H. pose proof (repeat_spec _ _ _ H) as ->. repeat split; auto.
      apply (count_occ_In jsstring_eq_dec).
      destruct (count_occ jsstring_eq_dec (pickTags (snd member)) t); [inversion H|lia].
    + intros (_ & Ht & ->). apply (count_occ_In jsstring_eq_dec) in Ht.
      destruct (count_occ jsstring_eq_dec (pickTags (snd member)) t); [lia|now left].
  - split; [tauto|]. now intros (? & _).
Qed.

Lemma expectedBucket_In (t : jsstring) (openapi : OpenApiDocument)
  (e : IndexedOperation) :
  In e (expectedBucket t openapi) <->
  exists pk item me op,
    In (pk, item) (pathsOrEmpty openapi) /\ In (me, op) item /\
    isMethod me = true /\ In t (pickTags op) /\ e = mkEntry pk me op.
Proof.
  unfold expectedBucket. rewrite in_flat_map. split.
  - intros ([pk item] & Hp & H). apply in_flat_map in H as ([me op] & Hm & H).
    apply recordsFrom_In in H as (M & T & E). exists pk, item, me, op. auto.
  - intros (pk & item & me & op & Hp & Hm & M & T & E).
    exists (pk, item). split; auto. apply in_flat_map. exists (me, op). split; auto.
    apply recordsFrom_In. auto.
Qed.

(** Claim C7.  Every operation found under a recognised method key of
    some path item is recorded in the bucket of at least one tag (indeed
    of every tag [pickTags] gives it); when its [tags] are absent, not an
    array, or an empty array, it is recorded under ["default"]. *)
Theorem every_operation_grouped (openapi : OpenApiDocument) (pathKey : jsstring)
  (item : PathItem) (method : jsstring) (op : Operation) :
  In (pathKey, item) (pathsOrEmpty openapi) ->
  In (method, op) item ->
  isMethod method = true ->
  (exists tag ops,
      JsMap.get tag (groupOperationsByTag openapi) = Some ops /\
      In (mkEntry pathKey method op) ops) /\
  (forall tag, In tag (pickTags op) ->
   exists ops,
      JsMap.get tag (groupOperationsByTag openapi) = Some ops /\
      In (mkEntry pathKey method op) ops) /\
  (tags op = TagsAbsent \/ tags op = TagsNotArray \/ tags op = TagsArray [] ->
   exists ops,
      JsMap.get (js "default") (groupOperationsByTag openapi) = Some ops /\
      In (mkEntry pathKey method op) ops).
Proof.
  intros Hp Hm M.
  assert (A : forall tag, In tag (pickTags op) ->
              exists ops, JsMap.get tag (groupOperationsByTag openapi) = Some ops /\
                          In (mkEntry pathKey method op) ops).
  { intros tag Ht. apply bucket_get. rewrite bucket_groupOperationsByTag.
    apply expectedBucket_In. exists pathKey, item, method, op. auto. }
  split; [|split; [exact A|]].
  - assert (exists tag, In tag (pickTags op)) as [tag Ht].
    { unfold pickTags. destruct (tags op) as [| |[|t ts]]; eexists; now left. }
    exists tag. now apply A.
  - intros U. apply A. unfold pickTags.
    destruct U as [->|[->| ->]]; now left.
Qed.

Lemma every_operation_grouped_witness :
  exists ops,
    JsMap.get (js "default") (groupOperationsByTag untaggedExample) = Some ops /\
    In (mkEntry (js "/ping") (js "get")
          {| operationId := None; tags := TagsArray []; summary := None;
             parameters := None; requestBody := false |}) ops.
Proof.
  refine (proj2 (proj2 (every_operation_grouped untaggedExample (js "/ping") _ (js "get") _ _ _ _)) _).
  - left. reflexivity.
  - left. reflexivity.
  - reflexivity.
  - right. right. reflexivity.
Defined.

End Grouping.

(** ** Fan-out *)

Section FanOut.

Lemma filter_repeat (A : Type) (p : A -> bool) (x : A) (n : nat) :
  filter p (repeat x n) = if p x then repeat x n else [].
Proof.
  induction n as [|n IH]; simpl.
  - now destruct (p x).
  - rewrite IH. now destruct (p x).
Qed.

Lemma records_member (pk me t pk' : jsstring) (member : jsstring * Operation) :
  List.length (filter (isEntryOf pk me) (recordsFrom t pk' member))
  = if jsstring_eqb pk' pk && jsstring_eqb (fst member) me
    then List.length (recordsFrom t pk' member) else 0.
Proof.
  unfold recordsFrom. destruct (isMethod (fst member)); simpl.
  - rewrite filter_repeat. unfold isEntryOf. simpl.
    now destruct (jsstring_eqb pk' pk && jsstring_eqb (fst member) me).
  - now destruct (jsstring_eqb pk' pk && jsstring_eqb (fst member) me).
Qed.

Lemma records_item (pk me t pk' : jsstring) (item : PathItem) :
  distinctKeys item = true ->
  List.length (filter (isEntryOf pk me) (flat_map (recordsFrom t pk') item))
  = if jsstring_eqb pk' pk then
      match JsMap.get me item with
      | Some op => List.length (recordsFrom t pk' (me, op))
      | None => 0
      end
    else 0.
Proof.
  induction item as [|[k o] item IH]; intros D.
  - simpl. now destruct (jsstring_eqb pk' pk).
  - pose proof (distinctKeys_head_absent _ _ _ _ D) as Habs.
    simpl in D. apply andb_prop in D as [_ D].
    cbn [flat_map]. rewrite filter_app, length_app, records_member, (IH D).
    cbn [fst JsMap.get]. rewrite (jsstring_eqb_sym me k).
    destruct (jsstring_eqb pk' pk); simpl; auto.
    destruct (jsstring_eqb k me) eqn:E; auto.
    apply jsstring_eqb_eq in E. subst k. rewrite Habs. lia.
Qed.

Lemma records_paths (pk me t : jsstring) (ps : list (jsstring * PathItem)) :
  distinctKeys ps = true ->
  forallb (fun entry => distinctKeys (snd entry)) ps = true ->
  List.length
    (filter (isEntryOf pk me)
       (flat_map (fun entry => flat_map (recordsFrom t (fst entry)) (snd entry)) ps))
  = match JsMap.get pk ps with
    | Some item =>
        match JsMap.get me item with
        | Some op => List.length (recordsFrom t pk (me, op))
        | None => 0
        end
    | None => 0
    end.
Proof.
  induction ps as [|[k item] ps IH]; intros D W; auto.
  pose proof (distinctKeys_head_absent _ _ _ _ D) as Habs.
  simpl in D, W. apply andb_prop in D as [_ D]. apply andb_prop in W as [W0 W].
  cbn [flat_map fst snd]. rewrite filter_app, length_app, (records_item _ _ _ _ _ W0), (IH D W).
  cbn [JsMap.get]. rewrite (jsstring_eqb_sym pk k).
  destruct (jsstring_eqb k pk) eqn:E; auto.
  apply jsstring_eqb_eq in E. subst k. rewrite Habs. lia.
Qed.

Lemma wellFormed_lookup (openapi : OpenApiDocument) (pk me : jsstring)
  (item : PathItem) (op : Operation) :
  wellFormed openapi = true ->
  In (pk, item) (pathsOrEmpty openapi) -> In (me, op) item ->
  JsMap.get pk (pathsOrEmpty openapi) = Some item /\ JsMap.get me item = Some op.
Proof.
  unfold wellFormed. intros W Hp Hm. apply andb_prop in W as [D W].
  split; [now apply distinctKeys_get|].
  apply distinctKeys_get; auto.
  rewrite forallb_forall in W. apply (W (pk, item) Hp).
Qed.

(** Claim C6, amended.  In a document whose objects have pairwise
    distinct keys, the bucket of a tag holds as many records of the
    operation at [(pathKey, method)] as the tag occurs among the tags of
    the operation: exactly one in each bucket when the tags are pairwise
    distinct.  Every such record is the same entry, so all carry the
    function name computed once for [(pathKey, method)]. *)
Theorem fan_out_per_occurrence (openapi : OpenApiDocument) (pathKey : jsstring)
  (item : PathItem) (method : jsstring) (op : Operation) (tag : jsstring) :
  wellFormed openapi = true ->
  In (pathKey, item) (pathsOrEmpty openapi) ->
  In (method, op) item ->
  isMethod method = true ->
  recordsOf pathKey method tag (groupOperationsByTag openapi)
  = count_occ jsstring_eq_dec (pickTags op) tag /\
  (NoDup (pickTags op) -> In tag (pickTags op) ->
   recordsOf pathKey method tag (groupOperationsByTag openapi) = 1) /\
  (forall e, In e (bucket tag (groupOperationsByTag openapi)) ->
             isEntryOf pathKey method e = true ->
             e = mkEntry pathKey method op /\
             io_fnName e = opFunctionName op pathKey method).
Proof.
  intros W Hp Hm M.
  destruct (wellFormed_lookup _ _ _ _ _ W Hp Hm) as [Gp Gm].
  assert (C : recordsOf pathKey method tag (groupOperationsByTag openapi)
              = count_occ jsstring_eq_dec (pickTags op) tag).
  { unfold recordsOf. rewrite bucket_groupOperationsByTag. unfold expectedBucket.
    unfold wellFormed in W. apply andb_prop in W as [D W'].
    rewrite (records_paths _ _ _ _ D W'), Gp, Gm.
    unfold recordsFrom. simpl. rewrite M. apply repeat_length. }
  split; [exact C|]. split.
  - intros ND Ht. rewrite C. apply NoDup_count_occ'; assumption.
  - intros e He Ee. rewrite bucket_groupOperationsByTag in He.
    apply expectedBucket_In in He as (pk' & item' & me' & op' & Hp' & Hm' & M' & T' & ->).
    unfold isEntryOf in Ee. simpl in Ee. apply andb_prop in Ee as [E1 E2].
    apply jsstring_eqb_eq in E1, E2. subst pk' me'.
    destruct (wellFormed_lookup _ _ _ _ _ W Hp' Hm') as [Gp' Gm'].
    rewrite Gp in Gp'. inversion Gp'; subst item'.
    rewrite Gm in Gm'. inversion Gm'; subst op'. split; reflexivity.
Qed.

Lemma fan_out_per_occurrence_witness :
  recordsOf (js "/pets") (js "get") (js "b") (groupOperationsByTag twoTagsExample) = 1.
Proof.
  refine (proj1 (proj2 (fan_out_per_occurrence twoTagsExample (js "/pets") _ (js "get") _ (js "b") _ _ _ _)) _ _).
  - reflexivity.
  - left. reflexivity.
  - left. reflexivity.
  - reflexivity.
  - simpl. repeat constructor; simpl; intuition discriminate.
  - simpl. right. left. reflexivity.
Defined.

(** An operation tagged ["a"] twice has two records in the bucket of
    ["a"], not one. *)
Lemma fan_out_repeated_tag :
  wellFormed repeatedTagExample = true /\
  pathsOrEmpty repeatedTagExample
  = [ (js "/pets",
       [ (js "get",
          {| operationId := Some (js "listPets"); tags := TagsArray [js "a"; js "a"];
             summary := None; parameters := None; requestBody := false |}) ]) ] /\
  recordsOf (js "/pets") (js "get") (js "a") (groupOperationsByTag repeatedTagExample) = 2.
Proof. repeat split; reflexivity. Qed.

End FanOut.

(** ** Spec loader *)

Section Loader.

Lemma fetchJson_fails (W : World) (url : jsstring) (e : JsError) :
  DownloadFails W url e ->
  exists n, forall fuel, n <= fuel -> fetchJson W fuel url = Some (Throw e).
Proof.
  induction 1 as [url e H | url res n H Hs Hn | url res H R S P
                 | url res target e H R L D [n IH]].
  - exists 1. intros [|fuel] Hf; [lia|]. simpl. now rewrite H.
  - exists 1. intros [|fuel] Hf; [lia|]. simpl. rewrite H.
    assert (R : isRedirect res = false).
    { unfold isRedirect, statusBelow. rewrite Hs.
      assert (N.ltb n 400 = false) as -> by (apply N.ltb_ge; lia).
      now rewrite andb_false_r. }
    assert (S : statusAtLeast 400 res = true).
    { unfold statusAtLeast. rewrite Hs.
      assert (N.eqb n 0 = false) as -> by (apply N.eqb_neq; lia).
      apply N.leb_le in Hn. now rewrite Hn. }
    rewrite R, S. unfold statusOf. now rewrite Hs.
  - exists 1. intros [|fuel] Hf; [lia|]. simpl. now rewrite H, R, S, P.
  - exists (Datatypes.S n). intros [|fuel] Hf; [lia|]. simpl. rewrite H, R.
    assert (orEmpty (location res) = target) as ->.
    { unfold isRedirect in R. apply andb_prop in R as [_ T].
      rewrite L in *. simpl in *. now rewrite T. }
    apply IH. lia.
Qed.

(** Conversely, a rejection of [fetchJson] is a failed download. *)
Lemma fetchJson_throw (W : World) (fuel : nat) (url : jsstring) (e : JsError) :
  fetchJson W fuel url = Some (Throw e) -> DownloadFails W url e.
Proof.
  revert url. induction fuel as [|fuel IH]; intros url; simpl; [discriminate|].
  destruct (httpGet W (libOf url) url) as [e'|res] eqn:H.
  - intros E. inversion E; subst. now apply NetworkFailure.
  - destruct (isRedirect res) eqn:R.
    + intros E. unfold isRedirect in R. apply andb_prop in R as [R0 T].
      destruct (location res) as [target|] eqn:L; [|discriminate].
      simpl in E, T. rewrite T in E.
      apply RedirectedFailure with (res := res) (target := target); auto.
      unfold isRedirect. now rewrite R0, L.
    + destruct (statusAtLeast 400 res) eqn:S.
      * intros E. inversion E; subst. unfold statusAtLeast in S. unfold statusOf.
        destruct (statusCode res) as [n|] eqn:Hs; [|discriminate].
        apply andb_prop in S as [_ S]. apply N.leb_le in S.
        now apply StatusFailure with (res := res).
      * destruct (jsonParse W (body res)) eqn:P; [discriminate|].
        intros E. inversion E; subst. now apply ParseFailure with (res := res).
Qed.

(** Claim C3.  When the download of the document fails (the request
    errors, a response has a status of 400 or more, the body is not valid
    JSON, possibly after redirects), then with enough fuel to follow the
    redirects [fetchJson] rejects with that failure, and [main] rejects
    with it without a single call to the file system.  A status of 503
    gives the error whose message ends in [503]. *)
Theorem failed_download_writes_nothing (W : World) (argv2 envSpecUrl : option jsstring)
  (e : JsError) :
  DownloadFails W (specUrlOf argv2 envSpecUrl) e ->
  exists n, forall fuel, n <= fuel ->
    fetchJson W fuel (specUrlOf argv2 envSpecUrl) = Some (Throw e) /\
    main W fuel argv2 envSpecUrl = Some (Throw e, []).
Proof.
  intros D. destruct (fetchJson_fails _ _ _ D) as [n Hn]. exists n.
  intros fuel Hf. specialize (Hn fuel Hf). split; auto.
  unfold main. now rewrite Hn.
Qed.

Lemma failed_download_writes_nothing_witness :
  exists n, forall fuel, n <= fuel ->
    fetchJson unavailableWorld fuel DEFAULT_SPEC
      = Some (Throw (Error (js "Failed to download spec: 503"))) /\
    main unavailableWorld fuel None None
      = Some (Throw (Error (js "Failed to download spec: 503")), []).
Proof.
  apply (failed_download_writes_nothing unavailableWorld None None
           (downloadError 503)).
  apply StatusFailure
    with (res := {| statusCode := Some 503%N; location := None; body := [] |}).
  - reflexivity.
  - reflexivity.
  - now apply N.leb_le.
Defined.

End Loader.

(** ** Renderer and orchestrator *)

Section Renderer.

Lemma filterIn_error (loc : jsstring) (ps : list (option ParameterObject)) (e : JsError) :
  filterIn loc ps = Throw e -> e = TypeError.
Proof.
  induction ps as [|[p|] r IH]; simpl; try discriminate.
  - destruct (filterIn loc r); simpl; [discriminate|].
    intros H. inversion H; subst. now apply IH.
  - intros H. now inversion H.
Qed.

Lemma paramBuckets_error (op : IndexedOperation) (e : JsError) :
  paramBuckets op = Throw e -> e = TypeError.
Proof.
  unfold paramBuckets.
  destruct (filterIn (js "path") _) eqn:E1; simpl;
    [|intros H; inversion H; subst; eapply filterIn_error; eauto].
  destruct (filterIn (js "query") _) eqn:E2; simpl;
    [|intros H; inversion H; subst; eapply filterIn_error; eauto].
  destruct (filterIn (js "header") _) eqn:E3; simpl;
    [discriminate|intros H; inversion H; subst; eapply filterIn_error; eauto].
Qed.

Lemma renderOperation_error (U : CaseTables) (op : IndexedOperation) (e : JsError) :
  renderOperation U op = Throw e -> e = TypeError.
Proof.
  unfold renderOperation. destruct (paramBuckets op) as [[[a b] c]|e'] eqn:E; simpl.
  - discriminate.
  - intros H. inversion H; subst. eapply paramBuckets_error; eauto.
Qed.

Lemma renderOperations_error (U : CaseTables) (ops : list IndexedOperation) (e : JsError) :
  renderOperations U ops = Throw e -> e = TypeError.
Proof.
  induction ops as [|op ops IH]; simpl; [discriminate|].
  destruct (renderOperation U op) eqn:E; simpl.
  - destruct (renderOperations U ops); simpl; [discriminate|].
    intros H. inversion H; subst. now apply IH.
  - intros H. inversion H; subst. eapply renderOperation_error; eauto.
Qed.

Lemma className_error (U : CaseTables) (tag : jsstring) (e : JsError) :
  className U tag = Throw e -> e = TypeError.
Proof. destruct tag; simpl; [|discriminate]. intros H. now inversion H. Qed.

Lemma genApiModule_error (U : CaseTables) (tag : jsstring)
  (ops : list IndexedOperation) (e : JsError) :
  genApiModule U tag ops = Throw e -> e = TypeError.
Proof.
  unfold genApiModule, genApiModuleLines.
  destruct (className U tag) eqn:C; simpl.
  - destruct (renderOperations U ops) eqn:R; simpl; [discriminate|].
    intros H. inversion H; subst. eapply renderOperations_error; eauto.
  - intros H. inversion H; subst. eapply className_error; eauto.
Qed.

Lemma genApiModule_empty_tag (U : CaseTables) (ops : list IndexedOperation) :
  genApiModule U [] ops = Throw TypeError.
Proof. reflexivity. Qed.

Lemma className_nonempty (U : CaseTables) (tag : jsstring) :
  tag <> [] -> exists cn, className U tag = Ok cn.
Proof. destruct tag; [congruence|]. intros _. simpl. eauto. Qed.

End Renderer.

Section Orchestrator.

Lemma writeFile_unfold (W : World) (file content : jsstring) (done : list FsOp) :
  writeFile W file content done
  = match fsFault W (FsMkdir (pathDirname W file)) with
    | Some e => (Throw e, done)
    | None =>
        match fsFault W (FsWriteFile file content) with
        | Some e => (Throw e, done ++ [FsMkdir (pathDirname W file)])
        | None => (Ok tt, done ++ [FsMkdir (pathDirname W file); FsWriteFile file content])
        end
    end.
Proof.
  unfold writeFile, ensureDir, bind, perform.
  destruct (fsFault W (FsMkdir _)); auto.
  destruct (fsFault W (FsWriteFile _ _)); auto.
  now rewrite <- app_assoc.
Qed.

Lemma writeFile_error (W : World) (file content : jsstring) (done done' : list FsOp)
  (e : JsError) :
  (forall o, fsFault W o = None) ->
  writeFile W file content done = (Throw e, done') -> False.
Proof.
  intros NF. rewrite writeFile_unfold, !NF. discriminate.
Qed.

Lemma writeFile_ok (W : World) (file content : jsstring) (done done' : list FsOp)
  (u : unit) :
  writeFile W file content done = (Ok u, done') ->
  done' = done ++ [FsMkdir (pathDirname W file); FsWriteFile file content].
Proof.
  rewrite writeFile_unfold.
  destruct (fsFault W (FsMkdir _)); [discriminate|].
  destruct (fsFault W (FsWriteFile _ _)); [discriminate|].
  intros H. now inversion H.
Qed.

(** A run over groups that hold the empty tag is rejected. *)
Lemma emitModules_empty_tag (W : World) (outDir : jsstring) (grouped : TagGroups) :
  In [] (JsMap.keys grouped) ->
  forall exports done,
  exists e done',
    emitModules W outDir grouped exports done = (Throw e, done') /\
    ((forall o, fsFault W o = None) -> e = TypeError).
Proof.
  induction grouped as [|[tag ops] rest IH]; intros Hin exports done; [destruct Hin|].
  cbn [emitModules]. unfold bind at 1, lift at 1.
  destruct (genApiModule (caseTables W) tag ops) as [text|e] eqn:G.
  - assert (Hrest : In [] (JsMap.keys rest)).
    { destruct Hin as [E|H]; auto. simpl in E. subst tag.
      rewrite genApiModule_empty_tag in G. discriminate. }
    unfold bind at 1.
    destruct (writeFile W _ text done) as [[u|e] done1] eqn:Wf.
    + unfold bind at 1, lift at 1.
      destruct (className (caseTables W) tag) as [cn|e] eqn:C.
      * apply IH. exact Hrest.
      * exists e, done1. split; auto. intros _. eapply className_error; eauto.
    + exists e, done1. split; auto. intros NF. exfalso.
      eapply writeFile_error; eauto.
  - exists e, done. split; auto. intros _. eapply genApiModule_error; eauto.
Qed.

Lemma perform_unfold (W : World) (o : FsOp) (done : list FsOp) :
  perform W o done
  = match fsFault W o with Some e => (Throw e, done) | None => (Ok tt, done ++ [o]) end.
Proof. reflexivity. Qed.

Lemma generate_unfold (W : World) (spec : OpenApiDocument) (done : list FsOp) :
  generate W spec done
  = let outDir := pathResolve W (js "src/auth-client") in
    match perform W (FsMkdir outDir) done with
    | (Throw e, d) => (Throw e, d)
    | (Ok _, d1) =>
        match writeFile W (pathJoin W outDir (js "base.js")) genBaseJs d1 with
        | (Throw e, d) => (Throw e, d)
        | (Ok _, d2) =>
            match emitModules W outDir (groupOperationsByTag spec) [] d2 with
            | (Throw e, d) => (Throw e, d)
            | (Ok exports, d3) =>
                writeFile W (pathJoin W outDir (js "index.js"))
                  (join nl (indexLines exports)) d3
            end
        end
    end.
Proof.
  unfold generate, bind, ensureDir. cbv zeta.
  destruct (perform W _ done) as [[u|e] d1]; auto.
Qed.

Lemma tagged_key (openapi : OpenApiDocument) (pk : jsstring) (item : PathItem)
  (me : jsstring) (op : Operation) (t : jsstring) :
  In (pk, item) (pathsOrEmpty openapi) -> In (me, op) item ->
  isMethod me = true -> In t (pickTags op) ->
  In t (JsMap.keys (groupOperationsByTag openapi)).
Proof.
  intros Hp Hm M Ht. apply has_keys. unfold JsMap.has.
  assert (H : In (mkEntry pk me op) (bucket t (groupOperationsByTag openapi))).
  { rewrite bucket_groupOperationsByTag. apply expectedBucket_In.
    exists pk, item, me, op. auto. }
  apply bucket_get in H as (ops & -> & _). reflexivity.
Qed.

(** Claim C10.  Rendering the module of the empty tag throws a
    [TypeError], whatever the operations; so a run on a document in which
    an operation under a recognised method lists the tag [""] is rejected
    (with that [TypeError] when the file system reports no fault).  For
    every non-empty tag the class name is derived without error. *)
Theorem empty_tag_rejected (W : World) (fuel : nat) (argv2 envSpecUrl : option jsstring)
  (openapi : OpenApiDocument) (pathKey : jsstring) (item : PathItem)
  (method : jsstring) (op : Operation) (l : list jsstring) :
  fetchJson W fuel (specUrlOf argv2 envSpecUrl) = Some (Ok openapi) ->
  In (pathKey, item) (pathsOrEmpty openapi) ->
  In (method, op) item ->
  isMethod method = true ->
  tags op = TagsArray l ->
  In [] l ->
  (forall ops, genApiModule (caseTables W) [] ops = Throw TypeError) /\
  (exists e done,
      main W fuel argv2 envSpecUrl = Some (Throw e, done) /\
      ((forall o, fsFault W o = None) -> e = TypeError)) /\
  (forall tag, tag <> [] -> exists cn, className (caseTables W) tag = Ok cn).
Proof.
  intros F Hp Hm M T Hl. split; [reflexivity|]. split; [|apply className_nonempty].
  assert (K : In [] (JsMap.keys (groupOperationsByTag openapi))).
  { apply (tagged_key _ _ _ _ _ _ Hp Hm M). unfold pickTags. rewrite T.
    destruct l; [destruct Hl|exact Hl]. }
  unfold main. rewrite F, generate_unfold. cbv zeta. rewrite perform_unfold.
  destruct (fsFault W (FsMkdir _)) as [e|] eqn:F1.
  { eexists _, _. split; [reflexivity|]. intros NF. rewrite NF in F1. discriminate. }
  destruct (writeFile W _ genBaseJs _) as [[u|e] d2] eqn:W2.
  2:{ eexists _, _. split; [reflexivity|]. intros NF. exfalso.
      eapply writeFile_error; eauto. }
  destruct (emitModules_empty_tag W (pathResolve W (js "src/auth-client")) _ K [] d2)
    as (e & d3 & -> & He).
  eexists _, _. split; [reflexivity|]. exact He.
Qed.

Lemma empty_tag_rejected_witness :
  exists e done,
    main (servingWorld emptyTagExample) 1 None None = Some (Throw e, done) /\
    ((forall o, fsFault (servingWorld emptyTagExample) o = None) -> e = TypeError).
Proof.
  refine (proj1 (proj2 (empty_tag_rejected (servingWorld emptyTagExample) 1 None None
                          emptyTagExample (js "/ping") _ (js "get") _ [js ""] _ _ _ _ _ _))).
  - reflexivity.
  - left. reflexivity.
  - left. reflexivity.
  - reflexivity.
  - reflexivity.
  - left. reflexivity.
Defined.

End Orchestrator.

(** ** Emission plan *)

Section Plan.

Lemma keys_NoDup_addUnderTag (e : IndexedOperation) (m : TagGroups) (t : jsstring) :
  NoDup (JsMap.keys m) -> NoDup (JsMap.keys (addUnderTag e m t)).
Proof.
  intros ND. rewrite keys_addUnderTag. destruct (JsMap.has t m) eqn:H; auto.
  apply NoDup_app; auto.
  - constructor; [intros []|constructor].
  - intros x Hx [<-|[]]. apply has_keys in Hx. congruence.
Qed.

Lemma keys_NoDup_fold (A : Type) (f : TagGroups -> A -> TagGroups) (l : list A) :
  (forall m a, NoDup (JsMap.keys m) -> NoDup (JsMap.keys (f m a))) ->
  forall m, NoDup (JsMap.keys m) -> NoDup (JsMap.keys (fold_left f l m)).
Proof.
  intros Hf. induction l as [|a l IH]; intros m ND; simpl; auto.
Qed.

Lemma keys_NoDup_groupOperationsByTag (openapi : OpenApiDocument) :
  NoDup (JsMap.keys (groupOperationsByTag openapi)).
Proof.
  unfold groupOperationsByTag. apply keys_NoDup_fold; [|constructor].
  intros m [pk item] ND. unfold addPathItem. apply keys_NoDup_fold; auto.
  intros m' [me op] ND'. unfold addOperation.
  destruct (negb (isMethod me)); auto.
  apply keys_NoDup_fold; auto. intros. now apply keys_NoDup_addUnderTag.
Qed.

Lemma NoDup_keys_get (V : Type) (m : JsMap.t V) (k : jsstring) (v : V) :
  NoDup (JsMap.keys m) -> In (k, v) m -> JsMap.get k m = Some v.
Proof.
  induction m as [|[k0 v0] m IH]; simpl; [tauto|].
  intros ND [H|H].
  - inversion H; subst. now rewrite jsstring_eqb_refl.
  - inversion ND as [|? ? Hn ND']; subst.
    destruct (jsstring_eqb k k0) eqn:E; auto.
    apply jsstring_eqb_eq in E. subst k0. exfalso. apply Hn.
    change (In (fst (k, v)) (map fst m)). now apply in_map.
Qed.

(** What a completed loop over the groups has pushed and written. *)
Lemma emitModules_ok (W : World) (outDir : jsstring) (grouped : TagGroups) :
  forall exports done exports' done',
  emitModules W outDir grouped exports done = (Ok exports', done') ->
  exists plan,
    exports' = exports ++ plan /\
    map ex_tag plan = JsMap.keys grouped /\
    (forall o, In o done -> In o done') /\
    forall e, In e plan ->
      ex_file e = moduleFileName (caseTables W) (ex_tag e) /\
      className (caseTables W) (ex_tag e) = Ok (ex_className e) /\
      exists ops lines,
        In (ex_tag e, ops) grouped /\
        genApiModuleLines (caseTables W) (ex_tag e) ops = Ok lines /\
        In (classLine (ex_className e)) lines /\
        In (FsWriteFile (pathJoin W outDir (ex_file e)) (join nl lines)) done'.
Proof.
  induction grouped as [|[tag ops] rest IH]; intros exports done exports' done' H.
  - inversion H; subst. exists []. rewrite app_nil_r.
    split; [reflexivity|]. split; [reflexivity|]. split; [auto|]. intros e [].
  - cbn [emitModules] in H. unfold bind at 1, lift at 1 in H.
    destruct (genApiModule (caseTables W) tag ops) as [text|e0] eqn:G; [|discriminate].
    unfold bind at 1 in H.
    destruct (writeFile W _ text done) as [[u|e0] done1] eqn:Wf; [|discriminate].
    unfold bind at 1, lift at 1 in H.
    destruct (className (caseTables W) tag) as [cn|e0] eqn:C; [|discriminate].
    apply IH in H as (plan & -> & Hk & Hmono & Hall).
    apply writeFile_ok in Wf.
    set (entry := {| ex_tag := tag;
                     ex_file := moduleFileName (caseTables W) tag;
                     ex_className := cn |}) in *.
    exists (entry :: plan). split; [now rewrite <- app_assoc|].
    split; [simpl; now rewrite Hk|].
    split; [intros o Ho; apply Hmono; subst done1; apply in_or_app; now left|].
    intros e [<-|He].
    + split; [reflexivity|]. split; [exact C|]. simpl.
      unfold genApiModule in G.
      destruct (genApiModuleLines (caseTables W) tag ops) as [lines|] eqn:L;
        simpl in G; [|discriminate].
      inversion G; subst text. exists ops, lines. split; [now left|].
      split; [exact L|]. split.
      * unfold genApiModuleLines in L. rewrite C in L. simpl in L.
        destruct (renderOperations (caseTables W) ops); simpl in L; [|discriminate].
        inversion L; subst lines. simpl. tauto.
      * apply Hmono. subst done1. apply in_or_app. right. simpl. tauto.
    + destruct (Hall e He) as (Hf & Hc & ops' & lines & Hin & Hl & Hcl & Hw).
      split; auto. split; auto. exists ops', lines. split; [now right|auto].
Qed.

(** Claim C1, amended.  When a run completes, the [exports] array has
    exactly one element for every key of the tag groups, in the order of
    the keys, and the keys are pairwise distinct.  Each element holds the
    file name derived from the lower-cased tag and the class name derived
    from the tag; the module written to that file declares that very class
    name, and the barrel file written last re-exports it from that file.
    Distinct tags need not get distinct file names or class names. *)
Theorem emission_plan_consistent (W : World) (fuel : nat)
  (argv2 envSpecUrl : option jsstring) (openapi : OpenApiDocument)
  (done : list FsOp) :
  fetchJson W fuel (specUrlOf argv2 envSpecUrl) = Some (Ok openapi) ->
  main W fuel argv2 envSpecUrl = Some (Ok tt, done) ->
  let U := caseTables W in
  let grouped := groupOperationsByTag openapi in
  let outDir := pathResolve W (js "src/auth-client") in
  NoDup (JsMap.keys grouped) /\
  exists plan : list Export,
    map ex_tag plan = JsMap.keys grouped /\
    In (FsWriteFile (pathJoin W outDir (js "index.js")) (join nl (indexLines plan))) done /\
    forall e, In e plan ->
      ex_file e = moduleFileName U (ex_tag e) /\
      className U (ex_tag e) = Ok (ex_className e) /\
      In (barrelLine e) (indexLines plan) /\
      exists ops lines,
        JsMap.get (ex_tag e) grouped = Some ops /\
        genApiModuleLines U (ex_tag e) ops = Ok lines /\
        In (classLine (ex_className e)) lines /\
        In (FsWriteFile (pathJoin W outDir (ex_file e)) (join nl lines)) done.
Proof.
  intros F M U grouped outDir.
  pose proof (keys_NoDup_groupOperationsByTag openapi) as ND. fold grouped in ND.
  split; [exact ND|].
  unfold main in M. rewrite F in M. inversion M as [G]; clear M.
  rewrite generate_unfold in G. cbv zeta in G. fold outDir grouped in G.
  destruct (perform W (FsMkdir outDir) []) as [[u1|e1] d1]; [|discriminate].
  destruct (writeFile W _ genBaseJs d1) as [[u2|e2] d2]; [|discriminate].
  destruct (emitModules W outDir grouped [] d2) as [[exports|e3] d3] eqn:E; [|discriminate].
  apply emitModules_ok in E as (plan & Ep & Hk & _ & Hall). simpl in Ep. subst exports.
  apply writeFile_ok in G. subst done.
  exists plan. split; [exact Hk|]. split.
  - apply in_or_app. right. simpl. tauto.
  - intros e He. destruct (Hall e He) as (Hf & Hc & ops & lines & Hin & Hl & Hcl & Hw).
    split; auto. split; auto. split.
    + unfold indexLines. apply in_or_app. left. now apply in_map.
    + exists ops, lines. split; [now apply NoDup_keys_get|].
      split; auto. split; auto. apply in_or_app. now left.
Qed.

Lemma emission_plan_consistent_witness :
  let W := servingWorld caseClashExample in
  fetchJson W 1 (specUrlOf None None) = Some (Ok caseClashExample) /\
  main W 1 None None = Some (Ok tt, snd (generate W caseClashExample [])) /\
  exists plan : list Export,
    map ex_tag plan = JsMap.keys (groupOperationsByTag caseClashExample) /\
    In (FsWriteFile (pathJoin W (pathResolve W (js "src/auth-client")) (js "index.js"))
          (join nl (indexLines plan)))
       (snd (generate W caseClashExample [])).
Proof.
  intros W.
  assert (F : fetchJson W 1 (specUrlOf None None) = Some (Ok caseClashExample))
    by reflexivity.
  assert (M : main W 1 None None = Some (Ok tt, snd (generate W caseClashExample [])))
    by (vm_compute; reflexivity).
  split; [exact F|]. split; [exact M|].
  destruct (emission_plan_consistent W 1 None None caseClashExample _ F M)
    as (_ & plan & Hk & Hi & _).
  exists plan. split; [exact Hk|exact Hi].
Defined.

(** The tags ["a"] and ["A"] are distinct keys; both get the file
    [a-api.js] and the class name [A], and the run completes. *)
Lemma emission_plan_collision :
  js "a" <> js "A" /\
  JsMap.keys (groupOperationsByTag caseClashExample) = [js "a"; js "A"] /\
  (forall U, moduleFileName U (js "a") = js "a-api.js" /\
             moduleFileName U (js "A") = js "a-api.js") /\
  (forall U, className U (js "a") = Ok (js "A") /\
             className U (js "A") = Ok (js "A")) /\
  exists done,
    main (servingWorld caseClashExample) 1 None None = Some (Ok tt, done).
Proof.
  split; [discriminate|]. split; [reflexivity|].
  split; [intros U; split; reflexivity|].
  split; [intros U; split; reflexivity|].
  eexists. vm_compute. reflexivity.
Qed.

End Plan.

(* ================================================================== *)
(** * Further properties *)
(* ================================================================== *)

(** ** Names that need no sanitizing *)

Section SafeNames.

Lemma replaceRuns_none (cls : codeUnit -> bool) (min : nat) (repl s : jsstring) :
  forallb (fun c => negb (cls c)) s = true ->
  replaceRuns cls min repl s = s.
Proof.
  induction s as [|c r IH]; auto. simpl. intros H.
  apply andb_prop in H as [Hc Hr]. apply negb_true_iff in Hc.
  rewrite replaceRuns_other by assumption. now rewrite IH.
Qed.

Lemma hasDouble_tail (c : codeUnit) (s : jsstring) :
  hasDoubleUnderscore (c :: s) = false ->
  hasDoubleUnderscore s = false /\
  (isUnderscore c = true -> startsWithUnderscore s = false).
Proof.
  destruct s as [|d s]; [now split|].
  change (hasDoubleUnderscore (c :: d :: s))
    with ((isUnderscore c && isUnderscore d) || hasDoubleUnderscore (d :: s)).
  intros H. apply orb_false_elim in H as [H1 H2]. split; auto.
  intros Hc. rewrite Hc in H1. exact H1.
Qed.

Lemma collapse_fixed (s : jsstring) :
  hasDoubleUnderscore s = false ->
  replaceRunsFrom isUnderscore 2 (js "_") [] s = s /\
  (forall u, startsWithUnderscore s = false ->
             replaceRunsFrom isUnderscore 2 (js "_") [u] s = u :: s).
Proof.
  induction s as [|c r IH]; intros H.
  - split; reflexivity.
  - destruct (hasDouble_tail _ _ H) as [Hr Hs]. destruct (IH Hr) as [IH1 IH2].
    split.
    + cbn [replaceRunsFrom]. destruct (isUnderscore c) eqn:Hc.
      * apply IH2. now apply Hs.
      * cbn [flushRun app]. now rewrite IH1.
    + intros u Hu. simpl in Hu. cbn [replaceRunsFrom]. rewrite Hu.
      simpl. now rewrite IH1.
Qed.

Lemma toSafeName_unchanged (s : jsstring) :
  isSafeName s = true -> toSafeName s = s.
Proof.
  unfold isSafeName. intros H.
  apply andb_prop in H as [H D]. apply andb_prop in H as [H E].
  apply andb_prop in H as [W S].
  apply negb_true_iff in D, E, S.
  unfold toSafeName.
  rewrite (replaceRuns_none (fun c => negb (isWordChar c))).
  - pose proof (stripEdgeUnderscores_core 0 0 s S E) as C. simpl in C.
    rewrite app_nil_r in C. rewrite C. now apply collapse_fixed.
  - rewrite <- W. clear. induction s as [|c r IH]; auto. simpl.
    now rewrite negb_involutive, IH.
Qed.

Lemma toSafeName_isSafeName (s : jsstring) : isSafeName (toSafeName s) = true.
Proof.
  destruct (toSafeName_shape s) as (W & S & E & D).
  unfold isSafeName. now rewrite W, S, E, D.
Qed.

(** Property X1.  A name over [[A-Za-z0-9_]] with no underscore at either end and
    no two underscores in a row is returned by [toSafeName] as it is. *)
Theorem toSafeName_fixed (s : jsstring) :
  forallb isWordChar s = true ->
  startsWithUnderscore s = false ->
  endsWithUnderscore s = false ->
  hasDoubleUnderscore s = false ->
  toSafeName s = s.
Proof.
  intros W S E D. apply toSafeName_unchanged.
  unfold isSafeName. now rewrite W, S, E, D.
Qed.

Lemma toSafeName_fixed_witness :
  toSafeName (js "list_pets_v2") = js "list_pets_v2".
Proof.
  apply (toSafeName_fixed (js "list_pets_v2")); reflexivity.
Defined.

(** Property X2.  Sanitizing a sanitized name changes nothing. *)
Theorem toSafeName_idempotent (s : jsstring) :
  toSafeName (toSafeName s) = toSafeName s.
Proof. apply toSafeName_unchanged, toSafeName_isSafeName. Qed.

End SafeNames.

(** ** Path templates and file names *)

Section Templates.

Lemma replaceBraced_pieces (f : jsstring -> jsstring) (ps : list Piece) :
  forallb plainPiece ps = true ->
  replaceBraced f (renderPieces ps)
  = List.concat
      (List.map (fun p => match p with
                          | Literal text => text
                          | Placeholder name => f name
                          end) ps).
Proof.
  unfold renderPieces.
  induction ps as [|[text|name] ps IH]; simpl; auto; intros H;
    apply andb_prop in H as [Hp Hps].
  - rewrite replaceBraced_literal by assumption. now rewrite IH.
  - rewrite replaceBraced_cons. change (N.eqb openBrace openBrace) with true. cbv iota.
    rewrite <- app_assoc. simpl app.
    rewrite matchBraced_name by assumption. now rewrite IH.
Qed.

Lemma buildPathTemplate_templateText (ps : list Piece) :
  forallb plainPiece ps = true ->
  buildPathTemplate (renderPieces ps) = templateText ps.
Proof. intros H. unfold buildPathTemplate, templateText. now apply replaceBraced_pieces. Qed.

(** Property X3.  On a path made of literal text and well-formed placeholders,
    [buildPathTemplate] keeps the literal text and turns every [{name}]
    into [${pathParams.name}], in place. *)
Theorem buildPathTemplate_pieces (ps : list Piece) :
  forallb plainPiece ps = true ->
  buildPathTemplate (renderPieces ps) = templateText ps.
Proof. apply buildPathTemplate_templateText. Qed.

Lemma buildPathTemplate_pieces_witness :
  buildPathTemplate (js "/users/{id}/orders/{orderId}")
  = js "/users/${pathParams.id}/orders/${pathParams.orderId}".
Proof.
  apply (buildPathTemplate_pieces
           [Literal (js "/users/"); Placeholder (js "id");
            Literal (js "/orders/"); Placeholder (js "orderId")]).
  reflexivity.
Defined.

(** Property X4.  The file name of a module is a run of [[A-Za-z0-9_]] followed by
    [-api.js]: it holds no slash and is neither [.] nor [..], so the
    module is written inside the output directory whatever the tag. *)
Theorem moduleFileName_safe (U : CaseTables) (tag : jsstring) :
  exists stem,
    moduleFileName U tag = stem ++ js "-api.js" /\
    forallb isWordChar stem = true /\
    ~ In slash (moduleFileName U tag) /\
    moduleFileName U tag <> js ".." /\ moduleFileName U tag <> js ".".
Proof.
  exists (toSafeName (toLowerCase U tag)). unfold moduleFileName.
  destruct (toSafeName_shape (toLowerCase U tag)) as (W & _).
  split; [reflexivity|]. split; [exact W|].
  set (stem := toSafeName (toLowerCase U tag)) in *. split; [|split].
  - intros H. apply in_app_or in H as [H|H].
    + rewrite forallb_forall in W. specialize (W _ H). discriminate.
    + simpl in H. unfold slash in H.
      repeat (destruct H as [H|H]; [discriminate|]). exact H.
  - intros H. apply (f_equal (@List.length _)) in H. rewrite length_app in H.
    simpl in H. lia.
  - intros H. apply (f_equal (@List.length _)) in H. rewrite length_app in H.
    simpl in H. lia.
Qed.

Lemma word_identifierStart (c : codeUnit) :
  isWordChar c = true -> isIdentifierStart c = negb (isDigit c).
Proof.
  unfold isWordChar, isIdentifierStart, isLowerAZ, isUpperAZ, isDigit, isUnderscore,
    underscore.
  intros H.
  destruct (N.leb 97 c) eqn:A1, (N.leb c 122) eqn:A2, (N.leb 65 c) eqn:B1,
    (N.leb c 90) eqn:B2, (N.leb 48 c) eqn:D1, (N.leb c 57) eqn:D2,
    (N.eqb c 95) eqn:U, (N.eqb c 36) eqn:S; simpl in *; try reflexivity;
    try discriminate;
    repeat match goal with
           | H : N.leb _ _ = true |- _ => apply N.leb_le in H
           | H : N.leb _ _ = false |- _ => apply N.leb_gt in H
           | H : N.eqb _ _ = true |- _ => apply N.eqb_eq in H
           | H : N.eqb _ _ = false |- _ => apply N.eqb_neq in H
           end; lia.
Qed.

(** Property X5.  The class name of a tag holds only [[A-Za-z0-9_]], and the
    identifier [<className>Api] declared in the module is a valid one
    exactly when the class name does not start with a digit. *)
Theorem className_identifier (U : CaseTables) (tag cn : jsstring) :
  className U tag = Ok cn ->
  forallb isWordChar cn = true /\
  isIdentifierName (cn ++ js "Api") = negb (startsWithDigit cn).
Proof.
  destruct tag as [|c rest]; [discriminate|]. simpl. intros H. inversion H; subst; clear H.
  destruct (toSafeName_shape (toUpperCase U [c] ++ rest)) as (W & _).
  split; [exact W|].
  destruct (toSafeName (toUpperCase U [c] ++ rest)) as [|d r]; [reflexivity|].
  simpl in W. apply andb_prop in W as [Wd Wr].
  cbn [app isIdentifierName startsWithDigit].
  rewrite (word_identifierStart _ Wd), forallb_app, (word_identifierPart _ Wr).
  simpl. now rewrite andb_true_r.
Qed.

Lemma className_identifier_witness :
  className asciiTables (js "2fa login") = Ok (js "2fa_login") /\
  isIdentifierName (js "2fa_login" ++ js "Api") = false /\
  isIdentifierName (js "Pets" ++ js "Api") = true.
Proof.
  split; [reflexivity|]. split.
  - exact (proj2 (className_identifier asciiTables (js "2fa login") (js "2fa_login")
                    eq_refl)).
  - exact (proj2 (className_identifier asciiTables (js "pets") (js "Pets") eq_refl)).
Defined.

End Templates.

(** ** Function names and the segments of a path *)

Section PathSegments.

Lemma split_segment (seg rest : jsstring) :
  forallb (fun c => negb (N.eqb c slash)) seg = true ->
  split slash (seg ++ slash :: rest) = seg :: split slash rest /\
  split slash seg = [seg].
Proof.
  induction seg as [|c seg IH]; simpl.
  - intros _. split; reflexivity.
  - intros H. apply andb_prop in H as [Hc Hs]. apply negb_true_iff in Hc.
    destruct (IH Hs) as [IH1 IH2]. now rewrite Hc, IH1, IH2.
Qed.

Lemma split_segments (seg : jsstring) (segs : list (list Piece)) :
  forallb (fun c => negb (N.eqb c slash)) seg = true ->
  forallb plainSegment segs = true ->
  split slash (seg ++ segmentsPath segs) = seg :: List.map renderPieces segs.
Proof.
  revert seg. induction segs as [|s segs IH]; intros seg Hseg Hs.
  - unfold segmentsPath. simpl. rewrite app_nil_r. now apply split_segment.
  - simpl in Hs. apply andb_prop in Hs as [H1 H2].
    unfold plainSegment in H1. apply andb_prop in H1 as [_ H1].
    unfold segmentsPath. cbn [List.map List.concat].
    change (List.concat (List.map (fun seg0 => slash :: renderPieces seg0) segs))
      with (segmentsPath segs).
    simpl app. rewrite (proj1 (split_segment seg _ Hseg)). f_equal.
    now apply IH.
Qed.

Lemma filter_truthy_split (segs : list (list Piece)) :
  forallb plainSegment segs = true ->
  filter truthy (split slash (segmentsPath segs))
  = filter truthy (List.map renderPieces segs).
Proof.
  intros H. destruct segs as [|s segs]; [reflexivity|].
  unfold segmentsPath. cbn [List.map List.concat].
  change (List.concat (List.map (fun seg0 => slash :: renderPieces seg0) segs))
      with (segmentsPath segs).
  simpl in H. apply andb_prop in H as [H1 H2].
  unfold plainSegment in H1. apply andb_prop in H1 as [_ H1].
  cbn [app split]. change (N.eqb slash slash) with true. cbv iota.
  rewrite split_segments by assumption. reflexivity.
Qed.

Lemma filter_map_strip (l : list jsstring) :
  filter truthy (List.map stripPlaceholders (filter truthy l))
  = filter truthy (List.map stripPlaceholders l).
Proof.
  induction l as [|x l IH]; auto. simpl. destruct x as [|c x]; simpl; auto.
  now rewrite IH.
Qed.

Lemma map_strip_segments (segs : list (list Piece)) :
  forallb plainSegment segs = true ->
  List.map stripPlaceholders (List.map renderPieces segs) = List.map literalText segs.
Proof.
  induction segs as [|s segs IH]; auto. simpl. intros H.
  apply andb_prop in H as [H1 H2]. unfold plainSegment in H1.
  apply andb_prop in H1 as [H1 _].
  now rewrite stripPlaceholders_pieces, IH.
Qed.

Lemma fromPath_segments (segs : list (list Piece)) :
  forallb plainSegment segs = true ->
  fromPath (segmentsPath segs) = join (js "_") (literalSegments segs).
Proof.
  intros H. unfold fromPath, literalSegments.
  now rewrite filter_truthy_split, filter_map_strip, map_strip_segments.
Qed.

(** Property X6.  The name derived from a path does not depend on its
    placeholders: two paths whose segments leave the same literal text,
    once the placeholders are deleted and the empty segments dropped,
    give an operation without operationId the same function name under
    the same method.  So [/users/{id}] and [/users] share a name. *)
Theorem placeholder_names_do_not_matter (op : Operation) (method : jsstring)
  (segs1 segs2 : list (list Piece)) :
  truthyOpt (operationId op) = false ->
  forallb plainSegment segs1 = true ->
  forallb plainSegment segs2 = true ->
  literalSegments segs1 = literalSegments segs2 ->
  opFunctionName op (segmentsPath segs1) method
  = opFunctionName op (segmentsPath segs2) method.
Proof.
  intros A H1 H2 E. rewrite !opFunctionName_anonymous by assumption.
  unfold derivedBase. now rewrite !fromPath_segments, E.
Qed.

Lemma placeholder_names_do_not_matter_witness :
  opFunctionName anonymousOp (js "/users/{id}") (js "get")
  = opFunctionName anonymousOp (js "/users") (js "get") /\
  opFunctionName anonymousOp (js "/users") (js "get") = js "get_users".
Proof.
  split; [|reflexivity].
  apply (placeholder_names_do_not_matter anonymousOp (js "get")
           [[Literal (js "users")]; [Placeholder (js "id")]]
           [[Literal (js "users")]]); reflexivity.
Defined.

End PathSegments.

(** ** The groups as a map *)

Section GroupKeys.

Lemma has_keys_bool (V : Type) (k : jsstring) (m : JsMap.t V) :
  JsMap.has k m = JsSet.has k (JsMap.keys m).
Proof.
  unfold JsMap.has, JsSet.has. induction m as [|[k0 v0] m IH]; simpl; auto.
  destruct (jsstring_eqb k k0); auto.
Qed.

Lemma keys_addUnderTag_add (e : IndexedOperation) (m : TagGroups) (t : jsstring) :
  JsMap.keys (addUnderTag e m t) = JsSet.add (JsMap.keys m) t.
Proof.
  rewrite keys_addUnderTag, has_keys_bool. reflexivity.
Qed.

Lemma keys_tags (e : IndexedOperation) (tags : list jsstring) (m : TagGroups) :
  JsMap.keys (fold_left (addUnderTag e) tags m)
  = fold_left JsSet.add tags (JsMap.keys m).
Proof.
  revert m. induction tags as [|t tags IH]; intros m; simpl; auto.
  now rewrite IH, keys_addUnderTag_add.
Qed.

Lemma keys_addOperation (pk : jsstring) (m : TagGroups) (member : jsstring * Operation) :
  JsMap.keys (addOperation pk m member)
  = fold_left JsSet.add (tagsFrom member) (JsMap.keys m).
Proof.
  destruct member as [me op]. unfold addOperation, tagsFrom. simpl.
  destruct (isMethod me); simpl; auto. apply keys_tags.
Qed.

Lemma keys_addPathItem (m : TagGroups) (entry : jsstring * PathItem) :
  JsMap.keys (addPathItem m entry)
  = fold_left JsSet.add (flat_map tagsFrom (snd entry)) (JsMap.keys m).
Proof.
  destruct entry as [pk item]. unfold addPathItem. simpl.
  revert m. induction item as [|member item IH]; intros m; simpl; auto.
  now rewrite IH, keys_addOperation, fold_left_app.
Qed.

Lemma keys_groupOperationsByTag (openapi : OpenApiDocument) :
  JsMap.keys (groupOperationsByTag openapi) = firstOccurrences (allTags openapi).
Proof.
  rewrite <- ofList_firstOccurrences. unfold JsSet.ofList, groupOperationsByTag, allTags.
  change (@nil jsstring) with (JsMap.keys (@nil (jsstring * list IndexedOperation))).
  generalize (@nil (jsstring * list IndexedOperation)).
  induction (pathsOrEmpty openapi) as [|entry ps IH]; intros m; simpl; auto.
  now rewrite IH, keys_addPathItem, fold_left_app.
Qed.

Lemma filled_addUnderTag (e : IndexedOperation) (m : TagGroups) (t : jsstring) :
  bucketsFilled m -> bucketsFilled (addUnderTag e m t).
Proof.
  unfold bucketsFilled, addUnderTag, JsMap.has.
  induction m as [|[k0 v0] m IH]; intros F.
  - simpl. rewrite jsstring_eqb_refl. constructor; auto. simpl. discriminate.
  - inversion F as [|? ? F0 F']; subst. simpl.
    destruct (jsstring_eqb t k0) eqn:E; simpl.
    + rewrite E. constructor; auto. simpl. intros H. now apply app_eq_nil in H as [_ H].
    + specialize (IH F'). destruct (JsMap.get t m) eqn:G; simpl; rewrite E;
        constructor; auto.
Qed.

Lemma filled_fold (A : Type) (f : TagGroups -> A -> TagGroups) (l : list A) :
  (forall m a, bucketsFilled m -> bucketsFilled (f m a)) ->
  forall m, bucketsFilled m -> bucketsFilled (fold_left f l m).
Proof.
  intros Hf. induction l as [|a l IH]; intros m F; simpl; auto.
Qed.

Lemma filled_groupOperationsByTag (openapi : OpenApiDocument) :
  bucketsFilled (groupOperationsByTag openapi).
Proof.
  unfold groupOperationsByTag. apply filled_fold; [|constructor].
  intros m [pk item] F. unfold addPathItem. apply filled_fold; auto.
  intros m' [me op] F'. unfold addOperation.
  destruct (negb (isMethod me)); auto.
  apply filled_fold; auto. intros. now apply filled_addUnderTag.
Qed.

Lemma get_groupOperationsByTag (openapi : OpenApiDocument) (t : jsstring) :
  JsMap.get t (groupOperationsByTag openapi)
  = match expectedBucket t openapi with
    | [] => None
    | ops => Some ops
    end.
Proof.
  rewrite <- bucket_groupOperationsByTag. unfold bucket.
  destruct (JsMap.get t (groupOperationsByTag openapi)) as [ops|] eqn:G; auto.
  apply get_In in G.
  pose proof (filled_groupOperationsByTag openapi) as F.
  unfold bucketsFilled in F. rewrite Forall_forall in F. specialize (F _ G).
  simpl in F. now destruct ops.
Qed.

(** Property X7.  The keys of the groups are the tags of the operations under a
    method key, each once, in the order in which the traversal of the
    document first meets them (paths in order, members of a path item in
    order, tags of an operation in order); a member under another key
    contributes no tag. *)
Theorem groups_keys_first_seen (openapi : OpenApiDocument) :
  JsMap.keys (groupOperationsByTag openapi) = firstOccurrences (allTags openapi) /\
  NoDup (JsMap.keys (groupOperationsByTag openapi)).
Proof.
  rewrite keys_groupOperationsByTag. split; [reflexivity|apply firstOccurrences_NoDup].
Qed.

(** Property X8.  Looking a tag up in the groups gives the records expected for
    it when there are some and nothing otherwise: no group is empty, so
    no module without a method is ever generated. *)
Theorem groups_lookup (openapi : OpenApiDocument) (tag : jsstring) :
  JsMap.get tag (groupOperationsByTag openapi)
  = match expectedBucket tag openapi with
    | [] => None
    | ops => Some ops
    end /\
  bucketsFilled (groupOperationsByTag openapi).
Proof.
  split; [apply get_groupOperationsByTag|apply filled_groupOperationsByTag].
Qed.

(** Property X9.  Nothing but operations is grouped: every record of a group
    stands for a member of a path item whose key is one of the seven
    methods and whose tags (or the default tag) hold the tag of the
    group; the keys [parameters], [summary] or [x-...] of a path item
    leave no record. *)
Theorem records_only_from_methods (openapi : OpenApiDocument) (tag : jsstring)
  (ops : list IndexedOperation) :
  JsMap.get tag (groupOperationsByTag openapi) = Some ops ->
  ops <> [] /\
  forall e, In e ops ->
    exists pathKey item op,
      In (pathKey, item) (pathsOrEmpty openapi) /\
      In (io_method e, op) item /\
      isMethod (io_method e) = true /\
      In tag (pickTags op) /\
      e = mkEntry pathKey (io_method e) op.
Proof.
  intros G. rewrite get_groupOperationsByTag in G.
  destruct (expectedBucket tag openapi) as [|e0 l] eqn:E; [discriminate|].
  inversion G; subst; clear G. split; [discriminate|].
  intros e He. rewrite <- E in He. apply expectedBucket_In in He
    as (pk & item & me & op & Hp & Hm & M & T & ->).
  exists pk, item, op. simpl. auto.
Qed.

Lemma records_only_from_methods_witness :
  JsMap.keys (groupOperationsByTag sharedParametersExample)
  = [js "pets"; js "read"; js "owners"] /\
  exists ops,
    JsMap.get (js "read") (groupOperationsByTag sharedParametersExample) = Some ops /\
    List.map io_fnName ops = [js "listPets"; js "post_owners"] /\
    forall e, In e ops -> isMethod (io_method e) = true.
Proof.
  split; [reflexivity|]. eexists. split; [reflexivity|]. split; [reflexivity|].
  intros e He.
  destruct (records_only_from_methods sharedParametersExample (js "read") _ eq_refl)
    as [_ H].
  destruct (H e He) as (pk & item & op & _ & _ & M & _). exact M.
Defined.

End GroupKeys.

(** ** Rendered modules *)

Section RenderedModules.

Lemma filterIn_ok (loc : jsstring) (ps : list (option ParameterObject)) :
  (exists kept, filterIn loc ps = Ok kept) <->
  forallb (fun o => match o with Some _ => true | None => false end) ps = true.
Proof.
  induction ps as [|[p|] r IH]; simpl.
  - split; eauto.
  - rewrite <- IH. split.
    + intros [kept H]. destruct (filterIn loc r); simpl in H; [eauto|discriminate].
    + intros [kept H]. rewrite H. simpl. eauto.
  - split; [intros [kept H]|intros H]; discriminate.
Qed.

Lemma paramBuckets_ok (op : IndexedOperation) :
  (exists b, paramBuckets op = Ok b) <-> noNullParameter op = true.
Proof.
  unfold noNullParameter, paramBuckets. split.
  - intros [b H]. apply (filterIn_ok (js "path")).
    destruct (filterIn (js "path") _); simpl in H; [eauto|discriminate].
  - intros H.
    destruct (proj2 (filterIn_ok (js "path") _) H) as [k1 ->].
    destruct (proj2 (filterIn_ok (js "query") _) H) as [k2 ->].
    destruct (proj2 (filterIn_ok (js "header") _) H) as [k3 ->].
    simpl. eauto.
Qed.

Lemma renderOperation_ok (U : CaseTables) (op : IndexedOperation) :
  (exists ls, renderOperation U op = Ok ls) <-> noNullParameter op = true.
Proof.
  rewrite <- paramBuckets_ok. unfold renderOperation. split.
  - intros [ls H]. destruct (paramBuckets op) as [b|]; [eauto|discriminate].
  - intros [[[a b] c] H]. rewrite H. simpl. eauto.
Qed.

Lemma renderOperations_ok (U : CaseTables) (ops : list IndexedOperation) :
  (exists ls, renderOperations U ops = Ok ls) <-> forallb noNullParameter ops = true.
Proof.
  induction ops as [|op ops IH]; simpl.
  - split; eauto.
  - rewrite andb_true_iff, <- IH, <- (renderOperation_ok U). split.
    + intros [ls H]. destruct (renderOperation U op); simpl in H; [|discriminate].
      destruct (renderOperations U ops); simpl in H; [eauto|discriminate].
    + intros [[l1 H1] [l2 H2]]. rewrite H1, H2. simpl. eauto.
Qed.

Lemma genApiModule_ok (U : CaseTables) (tag : jsstring)
  (ops : list IndexedOperation) :
  (exists text, genApiModule U tag ops = Ok text) <->
  tag <> [] /\ forallb noNullParameter ops = true.
Proof.
  rewrite <- (renderOperations_ok U). unfold genApiModule, genApiModuleLines. split.
  - intros [text H]. destruct tag as [|c tag]; [discriminate|]. split; [discriminate|].
    simpl in H. destruct (renderOperations U ops); [eauto|discriminate].
  - intros [Ht [ls H]]. destruct tag as [|c tag]; [congruence|].
    simpl. rewrite H. simpl. eauto.
Qed.

(** Property X10.  [genApiModule] returns a module exactly when the tag is not
    empty and no operation has a [null] among its parameters; in every
    other case it throws. *)
Theorem genApiModule_succeeds_iff (U : CaseTables) (tag : jsstring)
  (ops : list IndexedOperation) :
  (exists text, genApiModule U tag ops = Ok text) <->
  tag <> [] /\ forallb noNullParameter ops = true.
Proof. apply genApiModule_ok. Qed.





(** Property X12.  The path handed to the transport helper is built from the
    path key alone: every well-formed placeholder becomes a reference to
    [pathParams], whether or not the operation declares a path parameter.
    An operation with no parameters on such a path gets a method without
    a [pathParams] argument whose body still reads [pathParams]. *)
Theorem undeclared_path_parameter (U : CaseTables) (op : IndexedOperation)
  (ps : list Piece) :
  parametersOrEmpty (io_op op) = [] ->
  io_pathKey op = renderPieces ps ->
  forallb plainPiece ps = true ->
  exists lines,
    renderOperation U op = Ok lines /\
    In (signatureLine (io_fnName op)
          (if requestBody (io_op op) then [js "body"] else [])) lines /\
    In (pathLine (templateText ps)) lines.
Proof.
  intros E K P. unfold renderOperation, paramBuckets. rewrite E, K.
  cbn [filterIn bindR]. cbv zeta. eexists. split; [reflexivity|].
  split; (apply in_or_app; left).
  - do 4 right. left. unfold methodArgs. now destruct (requestBody (io_op op)).
  - do 6 right. left. unfold pathLine. now rewrite (buildPathTemplate_templateText ps P).
Qed.

Lemma undeclared_path_parameter_witness :
  exists lines,
    renderOperation asciiTables undeclaredExample = Ok lines /\
    In (js "  async create_user(body) {") lines /\
    In (js "      path: `/users/${pathParams.id}`,") lines.
Proof.
  exact (undeclared_path_parameter asciiTables undeclaredExample
           [Literal (js "/users/"); Placeholder (js "id")] eq_refl eq_refl eq_refl).
Defined.

End RenderedModules.

(** ** Downloads that succeed, and those that never end *)

Section Downloads.

Lemma fetchJson_more_fuel (W : World) (n m : nat) (url : jsstring)
  (r : result OpenApiDocument) :
  fetchJson W n url = Some r -> n <= m -> fetchJson W m url = Some r.
Proof.
  revert m url. induction n as [|n IH]; intros m url H Hm; [discriminate|].
  destruct m as [|m]; [lia|]. simpl in *.
  destruct (httpGet W (libOf url) url) as [e|res]; auto.
  destruct (isRedirect res); auto. apply IH; auto. lia.
Qed.




Example moved_document_is_followed :
  fetchJson (movedWorld twoTagsExample) 2 DEFAULT_SPEC = Some (Ok twoTagsExample) /\
  fetchJson (movedWorld twoTagsExample) 1 DEFAULT_SPEC = None.
Proof. split; reflexivity. Qed.

Lemma fetchJson_loop (W : World) (url : jsstring) (res : Response) :
  httpGet W (libOf url) url = Responded res ->
  isRedirect res = true ->
  location res = Some url ->
  forall fuel, fetchJson W fuel url = None.
Proof.
  intros H R L. induction fuel as [|fuel IH]; auto. simpl. rewrite H, R.
  assert (orEmpty (location res) = url) as ->; auto.
  unfold isRedirect in R. apply andb_prop in R as [_ T].
  rewrite L in *. simpl in *. now rewrite T.
Qed.

(** Property X14.  A redirect that points back at the address it answers is
    followed again and again: the promise of [fetchJson] never settles,
    whatever the number of requests allowed, and neither does [main].
    The loader has no bound on the redirects it follows. *)
Theorem redirect_loop_never_settles (W : World) (argv2 envSpecUrl : option jsstring)
  (res : Response) :
  httpGet W (libOf (specUrlOf argv2 envSpecUrl)) (specUrlOf argv2 envSpecUrl)
    = Responded res ->
  isRedirect res = true ->
  location res = Some (specUrlOf argv2 envSpecUrl) ->
  forall fuel,
    fetchJson W fuel (specUrlOf argv2 envSpecUrl) = None /\
    main W fuel argv2 envSpecUrl = None.
Proof.
  intros H R L fuel. pose proof (fetchJson_loop _ _ _ H R L fuel) as F.
  split; auto. unfold main. now rewrite F.
Qed.

Lemma redirect_loop_never_settles_witness :
  fetchJson loopingWorld 1000 DEFAULT_SPEC = None /\
  main loopingWorld 1000 None None = None.
Proof.
  exact (redirect_loop_never_settles loopingWorld None None
           {| statusCode := Some 302%N; location := Some DEFAULT_SPEC; body := [] |}
           eq_refl eq_refl eq_refl 1000).
Defined.

End Downloads.

(** ** The files of a run *)

Section Writes.

Lemma emitModules_exact (W : World) (outDir : jsstring) (grouped : TagGroups) :
  forall exports done exports' done',
  emitModules W outDir grouped exports done = (Ok exports', done') ->
  exports' = exports ++ List.map (fun kv => planEntry (caseTables W) (fst kv)) grouped /\
  done' = done ++ moduleWrites W outDir grouped.
Proof.
  unfold moduleWrites.
  induction grouped as [|[tag ops] rest IH]; intros exports done exports' done' H.
  - inversion H; subst. simpl. now rewrite !app_nil_r.
  - cbn [emitModules] in H. unfold bind at 1, lift at 1 in H.
    destruct (genApiModule (caseTables W) tag ops) as [text|e0] eqn:G; [|discriminate].
    unfold bind at 1 in H.
    destruct (writeFile W _ text done) as [[u|e0] done1] eqn:Wf; [|discriminate].
    unfold bind at 1, lift at 1 in H.
    destruct (className (caseTables W) tag) as [cn|e0] eqn:C; [|discriminate].
    apply IH in H as [-> ->]. apply writeFile_ok in Wf. subst done1.
    cbn [List.map flat_map fst snd]. unfold planEntry at 2, moduleText at 2.
    rewrite C, G. rewrite <- !app_assoc. split; reflexivity.
Qed.

(** Property X15.  A run that completes has made exactly the planned calls, in
    order: the output directory, [base.js], then for every tag of the
    groups, in the order of their keys, the module of the tag under its
    file name, and last [index.js] with one line per tag; every file is
    preceded by the making of its directory. *)
Theorem completed_run_writes (W : World) (fuel : nat)
  (argv2 envSpecUrl : option jsstring) (openapi : OpenApiDocument)
  (done : list FsOp) :
  fetchJson W fuel (specUrlOf argv2 envSpecUrl) = Some (Ok openapi) ->
  main W fuel argv2 envSpecUrl = Some (Ok tt, done) ->
  done = expectedWrites W openapi.
Proof.
  intros F M. unfold main in M. rewrite F in M. inversion M as [G]; clear M.
  rewrite generate_unfold in G. cbv zeta in G. rewrite perform_unfold in G.
  destruct (fsFault W (FsMkdir _)); [discriminate|].
  destruct (writeFile W _ genBaseJs _) as [[u2|e2] d2] eqn:W2; [|discriminate].
  destruct (emitModules W _ _ [] d2) as [[exports|e3] d3] eqn:E; [|discriminate].
  apply emitModules_exact in E as [-> ->]. apply writeFile_ok in W2, G. subst d2 done.
  unfold expectedWrites, fileWrite. cbv zeta. simpl. reflexivity.
Qed.

Lemma emitModules_extends (W : World) (outDir : jsstring) (grouped : TagGroups) :
  forall exports done,
  exists more, snd (emitModules W outDir grouped exports done) = done ++ more.
Proof.
  induction grouped as [|[tag ops] rest IH]; intros exports done.
  - exists []. simpl. now rewrite app_nil_r.
  - cbn [emitModules]. unfold bind at 1, lift at 1.
    destruct (genApiModule (caseTables W) tag ops) as [text|e0];
      [|exists []; simpl; now rewrite app_nil_r].
    unfold bind at 1. rewrite writeFile_unfold.
    destruct (fsFault W (FsMkdir _)); [exists []; simpl; now rewrite app_nil_r|].
    destruct (fsFault W (FsWriteFile _ _)); [eexists; simpl; reflexivity|].
    unfold bind at 1, lift at 1.
    destruct (className (caseTables W) tag) as [cn|e0]; [|eexists; simpl; reflexivity].
    match goal with |- context [emitModules W outDir rest ?x ?d] =>
      destruct (IH x d) as [more Hm] end.
    rewrite Hm. rewrite <- app_assoc. eexists. reflexivity.
Qed.

Lemma emitModules_rejection (W : World) (outDir : jsstring) (grouped : TagGroups) :
  (forall o, fsFault W o = None) ->
  forall exports done e done',
  emitModules W outDir grouped exports done = (Throw e, done') -> e = TypeError.
Proof.
  intros NF. induction grouped as [|[tag ops] rest IH]; intros exports done e done' H.
  - discriminate.
  - cbn [emitModules] in H. unfold bind at 1, lift at 1 in H.
    destruct (genApiModule (caseTables W) tag ops) as [text|e0] eqn:G.
    + unfold bind at 1 in H. rewrite writeFile_unfold, !NF in H.
      unfold bind at 1, lift at 1 in H.
      destruct (className (caseTables W) tag) as [cn|e0] eqn:C.
      * eapply IH; eauto.
      * inversion H; subst. eapply className_error; eauto.
    + inversion H; subst. eapply genApiModule_error; eauto.
Qed.

Lemma emitModules_completes (W : World) (outDir : jsstring) (grouped : TagGroups) :
  (forall o, fsFault W o = None) ->
  forall exports done,
  (exists exports' done',
      emitModules W outDir grouped exports done = (Ok exports', done')) <->
  Forall (fun kv => fst kv <> [] /\ forallb noNullParameter (snd kv) = true) grouped.
Proof.
  intros NF. induction grouped as [|[tag ops] rest IH]; intros exports done.
  - split; [constructor|]. intros _. simpl. unfold ret. eauto.
  - cbn [emitModules]. unfold bind at 1, lift at 1. split.
    + intros (ex & d & H).
      destruct (genApiModule (caseTables W) tag ops) as [text|e0] eqn:G; [|discriminate].
      unfold bind at 1 in H. rewrite writeFile_unfold, !NF in H.
      unfold bind at 1, lift at 1 in H.
      destruct (className (caseTables W) tag) as [cn|e0] eqn:C; [|discriminate].
      constructor.
      * apply (genApiModule_ok (caseTables W)). eauto.
      * eapply IH. eauto.
    + intros F. inversion F as [|? ? Hh Ht]; subst.
      apply (genApiModule_ok (caseTables W)) in Hh as [text G]. simpl in G. rewrite G.
      unfold bind at 1. rewrite writeFile_unfold, !NF.
      unfold bind at 1, lift at 1.
      destruct (className (caseTables W) tag) as [cn|e0] eqn:C.
      * apply IH. exact Ht.
      * exfalso. unfold genApiModule, genApiModuleLines in G. rewrite C in G. discriminate.
Qed.

(** Property X16.  On a file system without faults, once the document is
    there, the output directory and [base.js] are always written first;
    the run then completes exactly when every tag is non-empty and no
    operation has a [null] parameter, and rejects with a [TypeError]
    otherwise, leaving the files written until then in place. *)
Theorem base_written_before_rejection (W : World) (fuel : nat)
  (argv2 envSpecUrl : option jsstring) (openapi : OpenApiDocument) :
  fetchJson W fuel (specUrlOf argv2 envSpecUrl) = Some (Ok openapi) ->
  (forall o, fsFault W o = None) ->
  let outDir := pathResolve W (js "src/auth-client") in
  exists r rest,
    main W fuel argv2 envSpecUrl
    = Some (r, FsMkdir outDir ::
               fileWrite W (pathJoin W outDir (js "base.js")) genBaseJs ++ rest) /\
    (forall e, r = Throw e -> e = TypeError) /\
    (r = Ok tt <->
     Forall (fun kv => fst kv <> [] /\ forallb noNullParameter (snd kv) = true)
       (groupOperationsByTag openapi)).
Proof.
  intros F NF outDir. unfold main. rewrite F, generate_unfold. cbv zeta.
  fold outDir. rewrite perform_unfold, NF. cbv beta iota.
  rewrite writeFile_unfold, !NF. cbv beta iota.
  set (d2 := ([] ++ [FsMkdir outDir]) ++ _).
  destruct (emitModules_extends W outDir (groupOperationsByTag openapi) [] d2)
    as [more Hm].
  pose proof (emitModules_completes W outDir (groupOperationsByTag openapi) NF [] d2)
    as Hc.
  destruct (emitModules W outDir (groupOperationsByTag openapi) [] d2)
    as [[exports|e3] d3] eqn:E; simpl in Hm; subst d3.
  - rewrite writeFile_unfold, !NF. eexists _, _. split.
    + unfold fileWrite, d2. simpl. reflexivity.
    + split; [discriminate|]. split; [intros _; apply Hc; eauto|reflexivity].
  - eexists _, _. split; [unfold fileWrite, d2; simpl; reflexivity|]. split.
    + intros e H. inversion H; subst. eapply emitModules_rejection; eauto.
    + split; [discriminate|]. intros H. apply Hc in H as (ex & d & H). discriminate.
Qed.

Lemma base_written_before_rejection_witness :
  let W := servingWorld emptyTagExample in
  let outDir := pathResolve W (js "src/auth-client") in
  exists r rest,
    main W 1 None None
    = Some (r, FsMkdir outDir ::
               fileWrite W (pathJoin W outDir (js "base.js")) genBaseJs ++ rest) /\
    (forall e, r = Throw e -> e = TypeError) /\
    (r = Ok tt <->
     Forall (fun kv => fst kv <> [] /\ forallb noNullParameter (snd kv) = true)
       (groupOperationsByTag emptyTagExample)).
Proof.
  intros W.
  exact (base_written_before_rejection W 1 None None emptyTagExample eq_refl
           (fun _ => eq_refl)).
Defined.

Lemma completed_run_writes_witness :
  let W := servingWorld twoTagsExample in
  main W 1 None None = Some (Ok tt, expectedWrites W twoTagsExample) /\
  List.map fsTarget (expectedWrites W twoTagsExample)
  = [ js "/work/src/auth-client";
      js "/work/src/auth-client"; js "/work/src/auth-client/base.js";
      js "/work/src/auth-client"; js "/work/src/auth-client/a-api.js";
      js "/work/src/auth-client"; js "/work/src/auth-client/b-api.js";
      js "/work/src/auth-client"; js "/work/src/auth-client/index.js" ].
Proof.
  intros W.
  assert (F : fetchJson W 1 (specUrlOf None None) = Some (Ok twoTagsExample))
    by reflexivity.
  assert (M : main W 1 None None = Some (Ok tt, snd (generate W twoTagsExample [])))
    by (vm_compute; reflexivity).
  split; [|vm_compute; reflexivity].
  rewrite <- (completed_run_writes W 1 None None twoTagsExample _ F M). exact M.
Defined.

Lemma emitModules_prefix (W : World) (outDir : jsstring) (grouped : TagGroups) :
  forall exports done,
  exists made rest,
    snd (emitModules W outDir grouped exports done) = done ++ made /\
    moduleWrites W outDir grouped = made ++ rest.
Proof.
  unfold moduleWrites.
  induction grouped as [|[tag ops] rest IH]; intros exports done.
  - exists [], []. simpl. now rewrite app_nil_r.
  - cbn [emitModules flat_map fst snd]. unfold bind at 1, lift at 1.
    unfold moduleText at 1.
    destruct (genApiModule (caseTables W) tag ops) as [text|e0];
      [|exists []; eexists; simpl; rewrite app_nil_r; split; reflexivity].
    unfold bind at 1. rewrite writeFile_unfold. unfold fileWrite at 1.
    destruct (fsFault W (FsMkdir _));
      [exists []; eexists; simpl; rewrite app_nil_r; split; reflexivity|].
    destruct (fsFault W (FsWriteFile _ _));
      [eexists [_]; eexists; simpl; split; reflexivity|].
    unfold bind at 1, lift at 1.
    destruct (className (caseTables W) tag) as [cn|e0];
      [|eexists [_; _]; eexists; simpl; split; reflexivity].
    match goal with |- context [emitModules W outDir rest ?x ?d] =>
      destruct (IH x d) as (made & rest' & Hm & Hr) end.
    rewrite Hm, Hr. rewrite <- app_assoc. eexists (_ :: _ :: made), rest'.
    split; reflexivity.
Qed.

(** Property X17.  Whatever goes wrong once the document is there (a rejected
    tag, a [null] parameter, a fault of the file system), the calls made
    until then are the first calls of the plan of a completed run: the
    generator writes nothing but the planned files, in the planned
    order, and undoes nothing on failure. *)
Theorem run_writes_prefix_of_plan (W : World) (openapi : OpenApiDocument) :
  exists rest,
    expectedWrites W openapi = snd (generate W openapi []) ++ rest.
Proof.
  rewrite generate_unfold. cbv zeta. unfold expectedWrites. cbv zeta.
  set (outDir := pathResolve W (js "src/auth-client")).
  set (grouped := groupOperationsByTag openapi).
  rewrite perform_unfold.
  destruct (fsFault W (FsMkdir outDir)); [eexists; simpl; reflexivity|].
  cbv beta iota. rewrite writeFile_unfold. unfold fileWrite at 1.
  destruct (fsFault W (FsMkdir _)); [eexists; simpl; reflexivity|].
  destruct (fsFault W (FsWriteFile _ genBaseJs)); [eexists; simpl; reflexivity|].
  set (d2 := ([] ++ [FsMkdir outDir]) ++ _).
  destruct (emitModules_prefix W outDir grouped [] d2) as (made & rest & Hm & Hr).
  destruct (emitModules W outDir grouped [] d2) as [[exports|e3] d3] eqn:E;
    cbn [snd] in Hm; subst d3.
  - apply emitModules_exact in E as [-> E].
    apply app_inv_head in E. subst made.
    rewrite writeFile_unfold. unfold fileWrite.
    destruct (fsFault W (FsMkdir _)).
    + eexists. unfold d2. simpl. reflexivity.
    + destruct (fsFault W (FsWriteFile _ _)).
      * eexists [_]. unfold d2. simpl. rewrite <- !app_assoc. reflexivity.
      * exists []. unfold d2. simpl. rewrite <- !app_assoc. reflexivity.
  - rewrite Hr. eexists. unfold d2. simpl. rewrite <- !app_assoc. reflexivity.
Qed.

Example index_fault_keeps_modules :
  main (readOnlyIndexWorld twoTagsExample) 1 None None
  = Some (Throw (SystemError (js "EACCES")),
          removelast (expectedWrites (readOnlyIndexWorld twoTagsExample) twoTagsExample)).
Proof. vm_compute. reflexivity. Qed.

End Writes.

(** ** build.mjs: the copy of the static assets *)

Section StaticAssets.

Variable pjoin : jsstring -> jsstring -> jsstring.

Lemma Dirent_nested_ind (P : Dirent -> Prop) :
  (forall name, P (FileEntry name)) ->
  (forall name, P (OtherEntry name)) ->
  (forall name children, Forall P children -> P (DirEntry name children)) ->
  forall e, P e.
Proof.
  intros Hf Ho Hd. fix IH 1. intros [name|name children|name].
  - apply Hf.
  - apply Hd. induction children as [|c children IHc]; constructor.
    + apply IH.
    + apply IHc.
  - apply Ho.
Qed.

Lemma HoldsFile_member (entries : list Dirent) (chain : list jsstring) (name : jsstring) :
  HoldsFile entries chain name <->
  exists e, In e entries /\ HoldsFile [e] chain name.
Proof.
  split.
  - intros H. inversion H; subst.
    + eexists. split; [eassumption|]. constructor. now left.
    + eexists. split; [eassumption|]. econstructor; [now left|eassumption].
  - intros (e & He & H). inversion H as [? ? Hin|? ? ? ? ? Hin Hc]; subst.
    + destruct Hin as [->|[]]. now constructor.
    + destruct Hin as [->|[]]. econstructor; eassumption.
Qed.

Lemma copiedAs_member (src dest : jsstring) (entries : list Dirent) (s d : jsstring) :
  copiedAs pjoin src dest entries s d <->
  exists e, In e entries /\ copiedAs pjoin src dest [e] s d.
Proof.
  unfold copiedAs. split.
  - intros (chain & name & H & B & Es & Ed).
    apply HoldsFile_member in H as (e & He & H). exists e. split; auto.
    exists chain, name. auto.
  - intros (e & He & chain & name & H & B & Es & Ed). exists chain, name.
    split; auto. apply HoldsFile_member. eauto.
Qed.

Lemma copyEntry_files (e : Dirent) :
  forall src dest s d,
  In (CopyFile s d) (copyEntry pjoin src dest e) <-> copiedAs pjoin src dest [e] s d.
Proof.
  induction e as [name|name|name children IH] using Dirent_nested_ind;
    intros src dest s d; simpl.
  - destruct (isOldBundle name) eqn:B; simpl; split.
    + intros [].
    + intros (chain & n & H & Bn & _). inversion H as [? ? Hin|? ? ? ? ? Hin Hc]; subst.
      * destruct Hin as [E|[]]. inversion E; subst. congruence.
      * destruct Hin as [E|[]]. discriminate.
    + intros [E|[]]. inversion E; subst. exists [], name. repeat split; auto.
      constructor. now left.
    + intros (chain & n & H & Bn & -> & ->).
      inversion H as [? ? Hin|? ? ? ? ? Hin Hc]; subst.
      * destruct Hin as [E|[]]. inversion E; subst. now left.
      * destruct Hin as [E|[]]. discriminate.
  - split; [intros []|].
    intros (chain & n & H & _). inversion H as [? ? Hin|? ? ? ? ? Hin Hc]; subst;
      destruct Hin as [E|[]]; discriminate.
  - split.
    + intros [E|H]; [discriminate|]. apply in_flat_map in H as (c & Hc & H).
      rewrite Forall_forall in IH. apply (IH c Hc) in H.
      destruct H as (chain & n & H & B & -> & ->).
      exists (name :: chain), n. repeat split; auto.
      apply HoldsBelow with (children := children); [now left|].
      apply HoldsFile_member. eauto.
    + intros (chain & n & H & B & -> & ->). right.
      inversion H as [? ? Hin|? dir kids below ? Hin Hc]; subst.
      * destruct Hin as [E|[]]. discriminate.
      * destruct Hin as [E|[]]. inversion E; subst.
        apply HoldsFile_member in Hc as (c & Hc & Hh).
        apply in_flat_map. exists c. split; auto.
        rewrite Forall_forall in IH. apply (IH c Hc).
        exists below, n. repeat split; auto.
Qed.

(** Property X18.  [copyDir] copies exactly the regular files found below the
    source directory, at any depth, whose own name is neither
    [bundle.js] nor [bundle.js.map], each to the same relative place
    below the destination; entries that are neither a file nor a
    directory are passed over, and a directory named [bundle.js] is
    still gone through. *)
Theorem copyDir_copies (src dest : jsstring) (entries : list Dirent) (s d : jsstring) :
  In (CopyFile s d) (copyDir pjoin src dest entries) <->
  copiedAs pjoin src dest entries s d.
Proof.
  unfold copyDir. rewrite copiedAs_member. split.
  - intros [E|H]; [discriminate|]. apply in_flat_map in H as (e & He & H).
    exists e. split; auto. now apply copyEntry_files.
  - intros (e & He & H). right. apply in_flat_map. exists e. split; auto.
    now apply copyEntry_files.
Qed.

Lemma flat_map_split (A B : Type) (f : A -> list B) (l : list A) (x : B) :
  forall pre post,
  flat_map f l = pre ++ x :: post ->
  exists l1 a l2 p1 p2,
    l = l1 ++ a :: l2 /\ f a = p1 ++ x :: p2 /\ pre = flat_map f l1 ++ p1.
Proof.
  induction l as [|a l IH]; intros pre post H; simpl in H.
  - destruct pre; discriminate.
  - apply app_eq_app in H as (mid & [[H1 H2]|[H1 H2]]).
    + destruct mid as [|y mid].
      * rewrite app_nil_r in H1. simpl in H2. subst pre.
        destruct (IH [] post (eq_sym H2)) as (l1 & b & l2 & p1 & p2 & -> & Hb & Hp).
        exists (a :: l1), b, l2, p1, p2. simpl.
        rewrite <- app_assoc, <- Hp, app_nil_r. auto.
      * simpl in H2. inversion H2; subst y.
        exists [], a, l, pre, mid. simpl. now rewrite H1.
    + subst pre.
      destruct (IH mid post H2) as (l1 & b & l2 & p1 & p2 & -> & Hb & ->).
      exists (a :: l1), b, l2, p1, p2. simpl. rewrite app_assoc. auto.
Qed.

Lemma copyEntry_made_before (e : Dirent) :
  forall src dest pre s d post,
  copyEntry pjoin src dest e = pre ++ CopyFile s d :: post ->
  exists chain name,
    d = fold_left pjoin (chain ++ [name]) dest /\
    (chain = [] \/ In (CopyMkdir (fold_left pjoin chain dest)) pre).
Proof.
  induction e as [name|name|name children IH] using Dirent_nested_ind;
    intros src dest pre s d post H; simpl in H.
  - destruct (isOldBundle name); [destruct pre; discriminate|].
    destruct pre as [|o pre]; [|destruct pre; discriminate].
    inversion H; subst. exists [], name. auto.
  - destruct pre; discriminate.
  - destruct pre as [|o pre]; [discriminate|]. inversion H as [[Ho Hr]]; subst o.
    apply flat_map_split in Hr as (l1 & c & l2 & p1 & p2 & Hl & Hc & Hp).
    rewrite Forall_forall in IH.
    assert (Hin : In c children) by (rewrite Hl; apply in_elt).
    destruct (IH c Hin _ _ _ _ _ _ Hc) as (chain & n & -> & Hm).
    exists (name :: chain), n. split; [reflexivity|]. right.
    destruct Hm as [->|Hm]; [now left|]. right. rewrite Hp. apply in_or_app. now right.
Qed.

(** Property X19.  No file is copied into a directory that [copyDir] has not
    made before: the destination of every copy is a name joined to the
    destination of a directory whose [mkdir] comes earlier in the
    sequence of calls. *)
Theorem copyDir_makes_directory_first (src dest : jsstring) (entries : list Dirent)
  (pre post : list CopyOp) (s d : jsstring) :
  copyDir pjoin src dest entries = pre ++ CopyFile s d :: post ->
  exists dir name, d = pjoin dir name /\ In (CopyMkdir dir) pre.
Proof.
  unfold copyDir. intros H.
  destruct pre as [|o pre]; [discriminate|]. inversion H as [[Ho Hr]]; subst o.
  apply flat_map_split in Hr as (l1 & e & l2 & p1 & p2 & Hl & He & Hp).
  destruct (copyEntry_made_before e _ _ _ _ _ _ He) as (chain & n & -> & Hm).
  exists (fold_left pjoin chain dest), n. rewrite fold_left_app. split; [reflexivity|].
  destruct Hm as [->|Hm]; [now left|]. right. rewrite Hp. apply in_or_app. now right.
Qed.

End StaticAssets.

Section StaticAssetsExample.

Lemma copyDir_makes_directory_first_witness :
  copyDir joinSlash (js "public") (js "dist") publicExample
  = [ CopyMkdir (js "dist");
      CopyFile (js "public/index.html") (js "dist/index.html");
      CopyMkdir (js "dist/assets") ] ++
    CopyFile (js "public/assets/logo.svg") (js "dist/assets/logo.svg") :: [] /\
  exists dir name,
    js "dist/assets/logo.svg" = joinSlash dir name /\
    In (CopyMkdir dir)
      [ CopyMkdir (js "dist");
        CopyFile (js "public/index.html") (js "dist/index.html");
        CopyMkdir (js "dist/assets") ].
Proof.
  split; [reflexivity|].
  exact (copyDir_makes_directory_first joinSlash (js "public") (js "dist") publicExample
           [ CopyMkdir (js "dist");
             CopyFile (js "public/index.html") (js "dist/index.html");
             CopyMkdir (js "dist/assets") ]
           [] (js "public/assets/logo.svg") (js "dist/assets/logo.svg") eq_refl).
Defined.

End StaticAssetsExample.

(** ** What the sanitizer keeps *)

Section Alphanumerics.

Lemma underscore_not_alphanumeric (c : codeUnit) :
  isUnderscore c = true -> isAlphanumeric c = false.
Proof.
  unfold isUnderscore. intros H. apply N.eqb_eq in H. subst c. reflexivity.
Qed.

Lemma filter_none (A : Type) (keep cls : A -> bool) (l : list A) :
  (forall c, cls c = true -> keep c = false) ->
  forallb cls l = true -> filter keep l = [].
Proof.
  intros D. induction l as [|c l IH]; simpl; auto. intros H.
  apply andb_prop in H as [Hc Hl]. now rewrite (D _ Hc), IH.
Qed.

Lemma filter_flushRun (keep cls : codeUnit -> bool) (min : nat) (repl run : jsstring) :
  (forall c, cls c = true -> keep c = false) ->
  filter keep repl = [] ->
  forallb cls run = true ->
  filter keep (flushRun min repl run) = [].
Proof.
  intros D R H. unfold flushRun. destruct run as [|c run]; auto.
  destruct (Nat.leb min (List.length (c :: run))); auto.
  apply (filter_none _ keep cls); auto.
  rewrite forallb_forall in *. intros x Hx. apply H. now apply in_rev.
Qed.

Lemma filter_replaceRunsFrom (keep cls : codeUnit -> bool) (min : nat)
  (repl s : jsstring) :
  (forall c, cls c = true -> keep c = false) ->
  filter keep repl = [] ->
  forall run, forallb cls run = true ->
  filter keep (replaceRunsFrom cls min repl run s) = filter keep s.
Proof.
  intros D R. induction s as [|c r IH]; intros run H; cbn [replaceRunsFrom].
  - now apply filter_flushRun with (cls := cls).
  - destruct (cls c) eqn:C.
    + rewrite IH by (simpl; now rewrite C). simpl. now rewrite (D _ C).
    + rewrite filter_app, (filter_flushRun keep cls) by assumption.
      simpl. now rewrite IH.
Qed.

Lemma filter_dropWhile (s : jsstring) :
  filter isAlphanumeric (dropWhile isUnderscore s) = filter isAlphanumeric s.
Proof.
  induction s as [|c r IH]; simpl; auto.
  destruct (isUnderscore c) eqn:U; auto.
  now rewrite (underscore_not_alphanumeric _ U).
Qed.

Lemma filter_stripTrailing (s : jsstring) :
  filter isAlphanumeric (stripTrailingUnderscores s) = filter isAlphanumeric s.
Proof.
  induction s as [|c r IH]; auto.
  cbn [stripTrailingUnderscores].
  destruct (forallb isUnderscore (c :: r)) eqn:F.
  - symmetry. apply (filter_none _ isAlphanumeric isUnderscore); auto.
    apply underscore_not_alphanumeric.
  - simpl. now rewrite IH.
Qed.

Lemma toSafeName_alphanumerics (s : jsstring) :
  filter isAlphanumeric (toSafeName s) = filter isAlphanumeric s.
Proof.
  unfold toSafeName, replaceRuns, stripEdgeUnderscores.
  rewrite (filter_replaceRunsFrom isAlphanumeric isUnderscore);
    [|apply underscore_not_alphanumeric|reflexivity|reflexivity].
  rewrite filter_stripTrailing, filter_dropWhile.
  apply filter_replaceRunsFrom; [|reflexivity|reflexivity].
  intros c H. apply negb_true_iff in H. unfold isWordChar in H.
  apply orb_false_elim in H as [H _]. exact H.
Qed.

(** Property X20.  [toSafeName] keeps every letter and digit of its argument,
    in order, and adds none: it only removes characters outside
    [[A-Za-z0-9_]] and adds or removes underscores. *)
Theorem toSafeName_keeps_alphanumerics (s : jsstring) :
  filter isAlphanumeric (toSafeName s) = filter isAlphanumeric s.
Proof. apply toSafeName_alphanumerics. Qed.

(** Property X21.  The sanitized name is empty exactly when the argument holds no
    ASCII letter and no digit; only then is a function name empty, a
    module file named [-api.js] or a class named [Api]. *)
Theorem toSafeName_empty_iff (s : jsstring) :
  toSafeName s = [] <-> existsb isAlphanumeric s = false.
Proof.
  pose proof (toSafeName_alphanumerics s) as K.
  destruct (toSafeName_shape s) as (W & S & _).
  split.
  - intros E. rewrite E in K. simpl in K. symmetry in K.
    clear - K. induction s as [|c r IH]; auto. simpl in *.
    destruct (isAlphanumeric c); [discriminate|]. simpl. auto.
  - intros E.
    assert (N : filter isAlphanumeric s = []).
    { clear - E. induction s as [|c r IH]; auto. simpl in *.
      apply orb_false_elim in E as [-> E]. auto. }
    rewrite N in K. destruct (toSafeName s) as [|c r]; auto. exfalso.
    simpl in K, W, S. apply andb_prop in W as [Wc _].
    unfold isWordChar in Wc. fold (isAlphanumeric c) in Wc.
    destruct (isAlphanumeric c); [discriminate|]. simpl in Wc. congruence.
Qed.

End Alphanumerics.
